(** * StackView: the transition reconciler of the stack navigator

    A shallow embedding of
    [packages/stack/src/vendor/views/Stack/StackView.tsx]:
    the static [getDerivedStateFromProps] (the reconciler), the lifecycle
    handlers [handleOpenRoute] and [handleCloseRoute], and the query
    [getGesturesEnabled], followed by the properties the specification
    states about them. *)

From Stdlib Require Import ZArith Bool List String Lia.
From stdpp Require Import gmap strings list fin_maps.
Import ListNotations.

Local Open Scope string_scope.
Local Open Scope list_scope.

(** ** Data model *)

(** [Route<string>]: identity is the key. *)
Record Route := mkRoute { key : string; routeName : string }.

(** The value of the option [animationTypeForReplace]. *)
Inductive AnimationType := push | pop.

(** The options of a descriptor that the view reads; [None] is JavaScript's
    [undefined]. The navigation object, the component getter and the
    transition callbacks of a descriptor play no part in the state
    computed here. *)
Record Options := mkOptions {
  animationEnabled : option bool;
  gestureEnabled : option bool;
  animationTypeForReplace : option AnimationType
}.

Record Descriptor := mkDescriptor { options : Options }.

(** What a lookup in a descriptor map can give: [undefined], a
    descriptor, or a member inherited from [Object.prototype] (a
    function, or under [__proto__] the prototype itself). An inherited
    member is truthy and has no [options] property. *)
Inductive Value :=
| undefined
| object (descriptor : Descriptor)
| inherited.

(** [StackDescriptorMap]: a plain object from route keys to descriptors,
    given by its own properties; its prototype is [Object.prototype].
    An own property may hold [undefined] (the reducer of the reconciler
    stores the result of a lookup as it is). Such an object is built by
    assignments, which never create an own property [__proto__]. *)
Abbreviation DescriptorMap := (gmap string Value).

(** The properties of [Object.prototype]. *)
Definition objectPrototype : list string :=
  ["constructor"; "__defineGetter__"; "__defineSetter__"; "hasOwnProperty";
   "__lookupGetter__"; "__lookupSetter__"; "isPrototypeOf";
   "propertyIsEnumerable"; "toString"; "valueOf"; "__proto__";
   "toLocaleString"].

(** An array or object together with its identity: [===] on objects
    compares identities, never contents. *)
Record Ref (A : Type) := mkRef { ident : nat; target : A }.
Arguments mkRef {A} _ _.
Arguments ident {A} _.
Arguments target {A} _.

Definition same_ref {A} (x y : Ref A) : bool := Nat.eqb (ident x) (ident y).

(** [NavigationState], the externally owned source of truth. *)
Record NavigationState := mkNavigationState {
  ns_routes : Ref (list Route);
  ns_index : Z
}.

Record Props := mkProps {
  p_state : NavigationState;
  p_descriptors : Ref DescriptorMap
}.

Record State := mkState {
  routes : list Route;
  previousRoutes : Ref (list Route);
  previousDescriptors : Ref DescriptorMap;
  openingRouteKeys : list string;
  closingRouteKeys : list string;
  replacingRouteKeys : list string;
  descriptors : DescriptorMap
}.

(** ** Exceptions *)

Inductive Exception :=
| TypeError
| Error (message : string).

Inductive result (A : Type) :=
| Ok (a : A)
| Throw (e : Exception).
Arguments Ok {A} _.
Arguments Throw {A} _.

Definition rbind {A B} (r : result A) (f : A -> result B) : result B :=
  match r with
  | Ok a => f a
  | Throw e => Throw e
  end.

Notation "'try!' x <- r ; k" := (rbind r (fun x => k))
  (at level 10, x name, r at level 100, k at level 200).

(** ** JavaScript array and object primitives *)

(** [k in Object.prototype] *)
Definition inheritedName (k : string) : bool :=
  existsb (String.eqb k) objectPrototype.

(** [m[k]]: the own property, or else what the prototype chain gives.
    Under [__proto__] the accessor of [Object.prototype] answers. *)
Definition getDescriptor (m : DescriptorMap) (k : string) : Value :=
  if String.eqb k "__proto__" then inherited
  else
    match m !! k with
    | Some v => v
    | None => if inheritedName k then inherited else undefined
    end.

(** [acc[k] = v] on an object created by [{}]. Under [__proto__] the
    setter of [Object.prototype] runs instead: the reducer hands it what
    it read under the same key, the prototype [acc] already has, so
    nothing changes. *)
Definition setDescriptor (acc : DescriptorMap) (k : string) (v : Value)
  : DescriptorMap :=
  if String.eqb k "__proto__" then acc else <[k := v]> acc.

(** [a || b]: only [undefined] is falsy. *)
Definition orElse (a b : Value) : Value :=
  match a with
  | undefined => b
  | _ => a
  end.

(** [keys.includes(k)] *)
Definition includes (keys : list string) (k : string) : bool :=
  existsb (String.eqb k) keys.

(** [keys.filter(key => key !== k)] *)
Definition without (k : string) (keys : list string) : list string :=
  List.filter (fun key => negb (String.eqb key k)) keys.

(** [rs.find(r => r.key === k)] *)
Definition findByKey (rs : list Route) (k : string) : option Route :=
  List.find (fun r => String.eqb (key r) k) rs.

(** The index an array method resolves a relative position to. *)
Definition clampIndex (len : nat) (i : Z) : nat :=
  Z.to_nat (if (i <? 0)%Z then Z.max (Z.of_nat len + i) 0
            else Z.min i (Z.of_nat len)).

(** [l.slice(0, e)] *)
Definition slice0 {A} (l : list A) (e : Z) : list A :=
  firstn (clampIndex (length l) e) l.

(** [l.splice(start, 0, ...items)] on a copy of [l]. *)
Definition splice0 {A} (l : list A) (start : Z) (items : list A) : list A :=
  let k := clampIndex (length l) start in
  firstn k l ++ items ++ skipn k l.

(** [l[l.length - 1]] *)
Definition lastRoute (l : list Route) : option Route := last l.

(** The reducer shared by both paths of the reconciler. *)
Definition mergeDescriptors (pd sd : DescriptorMap) (rs : list Route)
  : DescriptorMap :=
  fold_left
    (fun acc route =>
       setDescriptor acc (key route)
         (orElse (getDescriptor pd (key route))
                 (getDescriptor sd (key route))))
    rs ∅.

(** ** The reconciler: [getDerivedStateFromProps] *)

(** What [getDerivedStateFromProps] returns: [null], the two descriptor
    fields, or all seven fields. *)
Inductive Derived :=
| NoUpdate
| DescriptorsUpdate (previousDescriptors' : Ref DescriptorMap)
                    (descriptors' : DescriptorMap)
| FullUpdate (s : State).

(** React merges the returned object into the state. *)
Definition applyDerived (state : State) (d : Derived) : State :=
  match d with
  | NoUpdate => state
  | DescriptorsUpdate pd ds =>
      {| routes := routes state;
         previousRoutes := previousRoutes state;
         previousDescriptors := pd;
         openingRouteKeys := openingRouteKeys state;
         closingRouteKeys := closingRouteKeys state;
         replacingRouteKeys := replacingRouteKeys state;
         descriptors := ds |}
  | FullUpdate s => s
  end.

(** Reading [options] of an inherited member gives [undefined], and
    reading a property of that throws. *)
Definition isAnimationEnabled (props : Props) (state : State) (k : string)
  : result bool :=
  match orElse (getDescriptor (target (p_descriptors props)) k)
               (getDescriptor (descriptors state) k) with
  | object descriptor =>
      match animationEnabled (options descriptor) with
      | Some false => Ok false
      | _ => Ok true
      end
  | undefined => Ok true
  | inherited => Throw TypeError
  end.

Definition getAnimationTypeForReplace (props : Props) (state : State)
  (k : string) : result AnimationType :=
  match orElse (getDescriptor (target (p_descriptors props)) k)
               (getDescriptor (descriptors state) k) with
  | object descriptor =>
      Ok (default push (animationTypeForReplace (options descriptor)))
  | undefined => Throw TypeError
  | inherited => Throw TypeError
  end.

(** The local variables the slow path reassigns. *)
Record Vars := mkVars {
  v_routes : list Route;
  v_opening : list string;
  v_closing : list string;
  v_replacing : list string
}.

(** The leading truncation: the focused route is the last visible one. *)
Definition truncated (st : NavigationState) : list Route :=
  let rs := target (ns_routes st) in
  if (ns_index st <? Z.of_nat (length rs) - 1)%Z
  then slice0 rs (ns_index st + 1)
  else rs.

Definition invariantMessage : string :=
  "There should always be at least one route in the navigation state.".

(** The first branch of the focus-changed case: a new route has come to
    the focus. *)
Definition pushBranch (props : Props) (state : State)
  (previousFocusedRoute nextFocusedRoute : Route) (v : Vars) : result Vars :=
  try! enabled <- isAnimationEnabled props state (key nextFocusedRoute);
  if enabled && negb (includes (v_opening v) (key nextFocusedRoute))
  then
    let opening := v_opening v ++ [key nextFocusedRoute] in
    let closing := without (key nextFocusedRoute) (v_closing v) in
    let replacing := without (key nextFocusedRoute) (v_replacing v) in
    match findByKey (v_routes v) (key previousFocusedRoute) with
    | None =>
        let opening := without (key previousFocusedRoute) opening in
        try! style <- getAnimationTypeForReplace props state
                        (key nextFocusedRoute);
        match style with
        | pop =>
            Ok {| v_routes := v_routes v ++ [previousFocusedRoute];
                  v_opening := without (key nextFocusedRoute) opening;
                  v_closing := closing ++ [key previousFocusedRoute];
                  v_replacing := replacing |}
        | push =>
            Ok {| v_routes :=
                    splice0 (v_routes v)
                            (Z.of_nat (length (v_routes v)) - 1)
                            [previousFocusedRoute];
                  v_opening := opening;
                  v_closing := without (key previousFocusedRoute) closing;
                  v_replacing := replacing ++ [key previousFocusedRoute] |}
        end
    | Some _ =>
        Ok {| v_routes := v_routes v;
              v_opening := opening;
              v_closing := closing;
              v_replacing := replacing |}
    end
  else Ok v.

(** The second branch: the previously focused route was removed. *)
Definition popBranch (props : Props) (state : State)
  (previousFocusedRoute : Route) (v : Vars) : result Vars :=
  try! enabled <- isAnimationEnabled props state (key previousFocusedRoute);
  if enabled && negb (includes (v_closing v) (key previousFocusedRoute))
  then
    Ok {| v_routes := v_routes v ++ [previousFocusedRoute];
          v_opening := without (key previousFocusedRoute) (v_opening v);
          v_closing := v_closing v ++ [key previousFocusedRoute];
          v_replacing := without (key previousFocusedRoute) (v_replacing v) |}
  else Ok v.

(** [rs.filter(p)] with a predicate that may throw: the routes are
    tested in order and the first throw ends the call. *)
Fixpoint filterRoutes (p : Route -> result bool) (rs : list Route)
  : result (list Route) :=
  match rs with
  | [] => Ok []
  | r :: rs' =>
      try! keep <- p r;
      try! rest <- filterRoutes p rs';
      Ok (if keep then r :: rest else rest)
  end.

(** The predicate of the filter in the branch below. *)
Definition stillAnimating (props : Props) (state : State) (v : Vars)
  (r : Route) : result bool :=
  try! enabled <- isAnimationEnabled props state (key r);
  Ok (if enabled
      then includes (v_replacing v) (key r) || includes (v_closing v) (key r)
      else false).

(** The focus did not change: keep the routes still closing or being
    replaced, if animation is enabled for them. *)
Definition keepBranch (props : Props) (state : State) (v : Vars)
  : result Vars :=
  if negb (length (v_replacing v) =? 0)%nat
     || negb (length (v_closing v) =? 0)%nat
  then
    try! kept <- filterRoutes (stillAnimating props state v) (routes state);
    Ok {| v_routes :=
            splice0 (v_routes v) (Z.of_nat (length (v_routes v)) - 1) kept;
          v_opening := v_opening v;
          v_closing := v_closing v;
          v_replacing := v_replacing v |}
  else Ok v.

(** The condition [previousFocusedRoute && previousFocusedRoute.key !==
    nextFocusedRoute.key]: reading [key] of an [undefined] next focused
    route throws. *)
Definition focusChanged (previousFocusedRoute nextFocusedRoute : option Route)
  : result (option (Route * Route)) :=
  match previousFocusedRoute with
  | None => Ok None
  | Some pf =>
      match nextFocusedRoute with
      | None => Throw TypeError
      | Some nf =>
          if negb (String.eqb (key pf) (key nf))
          then Ok (Some (pf, nf))
          else Ok None
      end
  end.

(** The local variables as the slow path first binds them. *)
Definition startVars (props : Props) (state : State) : Vars :=
  {| v_routes := truncated (p_state props);
     v_opening := openingRouteKeys state;
     v_closing := closingRouteKeys state;
     v_replacing := replacingRouteKeys state |}.

(** The object the slow path returns. *)
Definition derivedState (props : Props) (state : State) (v : Vars) : State :=
  {| routes := v_routes v;
     previousRoutes := ns_routes (p_state props);
     previousDescriptors := p_descriptors props;
     openingRouteKeys := v_opening v;
     closingRouteKeys := v_closing v;
     replacingRouteKeys := v_replacing v;
     descriptors :=
       mergeDescriptors (target (p_descriptors props))
                        (descriptors state) (v_routes v) |}.

Definition slowPath (props : Props) (state : State) : result Derived :=
  let v := startVars props state in
  let previousRoutes := target (previousRoutes state) in
  let previousFocusedRoute := lastRoute previousRoutes in
  let nextFocusedRoute := lastRoute (v_routes v) in
  try! changed <- focusChanged previousFocusedRoute nextFocusedRoute;
  try! v <-
    match changed with
    | Some (pf, nf) =>
        match findByKey previousRoutes (key nf) with
        | None => pushBranch props state pf nf v
        | Some _ =>
            match findByKey (v_routes v) (key pf) with
            | None => popBranch props state pf v
            | Some _ => Ok v
            end
        end
    | None => keepBranch props state v
    end;
  if (length (v_routes v) =? 0)%nat
  then Throw (Error invariantMessage)
  else Ok (FullUpdate (derivedState props state v)).

Definition fastPath (props : Props) (state : State) : Derived :=
  if negb (same_ref (p_descriptors props) (previousDescriptors state))
  then DescriptorsUpdate (p_descriptors props)
         (mergeDescriptors (target (p_descriptors props))
                           (descriptors state) (routes state))
  else NoUpdate.

Definition routesUnchanged (props : Props) (state : State) : bool :=
  same_ref (ns_routes (p_state props)) (previousRoutes state)
  && negb (length (routes state) =? 0)%nat.

Definition getDerivedStateFromProps (props : Props) (state : State)
  : result Derived :=
  if routesUnchanged props state
  then Ok (fastPath props state)
  else slowPath props state.

(** The state the component is constructed with. *)
Definition initialState : State :=
  {| routes := [];
     previousRoutes := mkRef 0 [];
     previousDescriptors := mkRef 0 ∅;
     openingRouteKeys := [];
     closingRouteKeys := [];
     replacingRouteKeys := [];
     descriptors := ∅ |}.

(** A state at rest: the rendered routes are the external routes last
    seen and no route is marked. *)
Definition settledState (seen : Ref (list Route))
  (seenDescriptors : Ref DescriptorMap) (retained : DescriptorMap) : State :=
  {| routes := target seen;
     previousRoutes := seen;
     previousDescriptors := seenDescriptors;
     openingRouteKeys := [];
     closingRouteKeys := [];
     replacingRouteKeys := [];
     descriptors := retained |}.

(** ** Lifecycle handlers *)

(** The actions the view sends upstream through [navigation.dispatch]. *)
Inductive Action :=
| CompleteTransition (toChildKey : string)
| Pop (popKey : string).

(** A handler reads and updates the component state, dispatches actions,
    and may throw. *)
Definition Handler (A : Type) : Type :=
  State -> result (A * State * list Action).

Definition hret {A} (a : A) : Handler A := fun s => Ok (a, s, []).

Definition hbind {A B} (m : Handler A) (f : A -> Handler B) : Handler B :=
  fun s =>
    match m s with
    | Ok (a, s1, acts1) =>
        match f a s1 with
        | Ok (b, s2, acts2) => Ok (b, s2, acts1 ++ acts2)
        | Throw e => Throw e
        end
    | Throw e => Throw e
    end.

Definition hthrow {A} (e : Exception) : Handler A := fun _ => Throw e.
Definition getState : Handler State := fun s => Ok (s, s, []).
Definition setState (f : State -> State) : Handler unit :=
  fun s => Ok (tt, f s, []).
Definition dispatch (a : Action) : Handler unit := fun s => Ok (tt, s, [a]).

Notation "'do!' x <- m ; k" := (hbind m (fun x => k))
  (at level 10, x name, m at level 100, k at level 200).
Notation "m ;; k" := (hbind m (fun _ => k))
  (at level 100, k at level 200, right associativity).

(** [rs.findIndex(r => r.key === k)] *)
Fixpoint findIndexByKey (rs : list Route) (k : string) : Z :=
  match rs with
  | [] => -1
  | r :: rs' =>
      if String.eqb (key r) k then 0
      else
        let i := findIndexByKey rs' k in
        if (i <? 0)%Z then -1 else (i + 1)%Z
  end.

(** [rs[i]] *)
Definition routeAt (rs : list Route) (i : Z) : option Route :=
  if (i <? 0)%Z then None else nth_error rs (Z.to_nat i).

(** The argument is [undefined] when [handleCloseRoute] indexes an empty
    route list. *)
Definition handleTransitionComplete (route : option Route) : Handler unit :=
  match route with
  | Some r => dispatch (CompleteTransition (key r))
  | None => hthrow TypeError
  end.

Definition handleOpenRoute (route : Route) : Handler unit :=
  handleTransitionComplete (Some route) ;;
  setState (fun state =>
    {| routes :=
         if negb (length (replacingRouteKeys state) =? 0)%nat
         then List.filter
                (fun r => negb (includes (replacingRouteKeys state) (key r)))
                (routes state)
         else routes state;
       previousRoutes := previousRoutes state;
       previousDescriptors := previousDescriptors state;
       openingRouteKeys := without (key route) (openingRouteKeys state);
       closingRouteKeys := without (key route) (closingRouteKeys state);
       replacingRouteKeys := [];
       descriptors := descriptors state |}).

Definition handleCloseRoute (props : Props) (route : Route) : Handler unit :=
  match findByKey (target (ns_routes (p_state props))) (key route) with
  | Some _ => dispatch (Pop (key route))
  | None =>
      do! this_state <- getState;
      let index := findIndexByKey (routes this_state) (key route) in
      handleTransitionComplete
        (routeAt (routes this_state) (Z.max (index - 1) 0)) ;;
      setState (fun state =>
        {| routes :=
             List.filter (fun r => negb (String.eqb (key r) (key route)))
                         (routes state);
           previousRoutes := previousRoutes state;
           previousDescriptors := previousDescriptors state;
           openingRouteKeys := without (key route) (openingRouteKeys state);
           closingRouteKeys := without (key route) (closingRouteKeys state);
           replacingRouteKeys := replacingRouteKeys state;
           descriptors := descriptors state |})
  end.

(** ** Queries *)

(** [platformOS] is [Platform.OS]. Destructuring the [options] of an
    inherited member throws. *)
Definition getGesturesEnabled (platformOS : string) (state : State)
  (route : Route) : result bool :=
  match getDescriptor (descriptors state) (key route) with
  | object descriptor =>
      match animationEnabled (options descriptor) with
      | Some false => Ok false
      | _ =>
          match gestureEnabled (options descriptor) with
          | Some g => Ok g
          | None => Ok (negb (String.eqb platformOS "android"))
          end
      end
  | inherited => Throw TypeError
  | undefined => Ok false
  end.

(** [getPreviousRoute]: the route before [route] once the routes that
    are closing or being replaced are left out ([route] itself stays). *)
Definition getPreviousRoute (state : State) (route : Route) : option Route :=
  let routes :=
    List.filter
      (fun r =>
         String.eqb (key r) (key route)
         || (negb (includes (closingRouteKeys state) (key r))
             && negb (includes (replacingRouteKeys state) (key r))))
      (routes state) in
  let index := findIndexByKey routes (key route) in
  routeAt routes (index - 1).

(** The element [renderScene] returns: a [SceneView] built from the
    navigation object and the component of one descriptor. *)
Inductive Scene :=
| SceneView (descriptor : Descriptor).

(** [renderScene]: the retained descriptor first, then the external
    one; [None] is [null]. An inherited member has no [getComponent],
    and calling it throws. *)
Definition renderScene (props : Props) (state : State) (route : Route)
  : result (option Scene) :=
  match orElse (getDescriptor (descriptors state) (key route))
               (getDescriptor (target (p_descriptors props)) (key route)) with
  | object descriptor => Ok (Some (SceneView descriptor))
  | undefined => Ok None
  | inherited => Throw TypeError
  end.

(** ** The states a mounted view goes through *)

(** Every render runs the reconciler on the current props, and the
    animation engine calls the two handlers between renders. *)
Inductive Step : State -> State -> Prop :=
| step_derive props state d :
    getDerivedStateFromProps props state = Ok d ->
    Step state (applyDerived state d)
| step_open route state state' acts :
    handleOpenRoute route state = Ok (tt, state', acts) ->
    Step state state'
| step_close props route state state' acts :
    handleCloseRoute props route state = Ok (tt, state', acts) ->
    Step state state'.

Inductive Reachable : State -> Prop :=
| reach_init : Reachable initialState
| reach_step state state' :
    Reachable state -> Step state state' -> Reachable state'.

(** ** Predicates on states *)

(** Keys of a route list. *)
Definition routeKeys (rs : list Route) : list string := List.map key rs.

(** The branch of the slow path that produced the local variables. *)
Inductive Branch (props : Props) (state : State) (v0 : Vars)
  : Vars -> Prop :=
| branch_push pf nf v :
    lastRoute (target (previousRoutes state)) = Some pf ->
    lastRoute (v_routes v0) = Some nf ->
    key pf <> key nf ->
    findByKey (target (previousRoutes state)) (key nf) = None ->
    pushBranch props state pf nf v0 = Ok v ->
    Branch props state v0 v
| branch_pop pf nf v :
    lastRoute (target (previousRoutes state)) = Some pf ->
    lastRoute (v_routes v0) = Some nf ->
    key pf <> key nf ->
    findByKey (v_routes v0) (key pf) = None ->
    popBranch props state pf v0 = Ok v ->
    Branch props state v0 v
| branch_reorder : Branch props state v0 v0
| branch_keep v :
    keepBranch props state v0 = Ok v ->
    Branch props state v0 v.

(** No key is both entering and leaving. *)
Definition disjointKeys (xs ys : list string) : Prop :=
  forall k, In k xs -> In k ys -> False.

Definition enteringLeavingDisjoint (s : State) : Prop :=
  disjointKeys (openingRouteKeys s) (closingRouteKeys s).

(** The invariant the data model asks for: every marked key is mounted. *)
Definition keysMounted (s : State) : Prop :=
  forall k,
    In k (openingRouteKeys s) \/ In k (closingRouteKeys s)
    \/ In k (replacingRouteKeys s) ->
    In k (routeKeys (routes s)).

(** What a step guarantees: a key of the new list was in the old list
    already, or its route is mounted now. *)
Definition addedKeysMounted (old new : list string) (rs : list Route) : Prop :=
  forall k, In k new -> In k old \/ In k (routeKeys rs).

Definition stepKeysMounted (s s' : State) : Prop :=
  addedKeysMounted (openingRouteKeys s) (openingRouteKeys s') (routes s') /\
  addedKeysMounted (closingRouteKeys s) (closingRouteKeys s') (routes s') /\
  addedKeysMounted (replacingRouteKeys s) (replacingRouteKeys s') (routes s').

(** ** Example data *)

Module Sample.

Definition A : Route := mkRoute "A" "Home".
Definition B : Route := mkRoute "B" "Details".
Definition C : Route := mkRoute "C" "Settings".

(** A route whose key names a member of [Object.prototype]. *)
Definition K : Route := mkRoute "constructor" "Profile".

Definition plain : Descriptor := mkDescriptor (mkOptions None None None).
Definition popStyle : Descriptor :=
  mkDescriptor (mkOptions None None (Some pop)).

Definition table (l : list (string * Descriptor)) : DescriptorMap :=
  list_to_map (List.map (fun '(k, d) => (k, object d)) l).

Definition props (id : nat) (rs : list Route) (i : Z)
  (ds : list (string * Descriptor)) : Props :=
  mkProps (mkNavigationState (mkRef id rs) i) (mkRef id (table ds)).

(** What mounting with [rs] produces. *)
Definition settled (id : nat) (rs : list Route)
  (ds : list (string * Descriptor)) : State :=
  settledState (mkRef id rs) (mkRef id (table ds))
               (mergeDescriptors (table ds) ∅ rs).

Definition noAnimation : Descriptor :=
  mkDescriptor (mkOptions (Some false) None None).
Definition withGestures : Descriptor :=
  mkDescriptor (mkOptions None (Some true) None).

Definition onlyA : DescriptorMap := table [("A", plain)].

(** The view mounts with [[A, B, C]]; the owner pops [C] and, before the
    exit animation of [C] completes, pops [B]. *)
Definition mounted3 : State :=
  settled 1 [A; B; C] [("A", plain); ("B", plain); ("C", plain)].

Definition popC : Props := props 2 [A; B] 1 [("A", plain); ("B", plain)].
Definition popB : Props := props 3 [A] 0 [("A", plain)].

Definition afterPopC : State :=
  derivedState popC mounted3
    {| v_routes := [A; B; C]; v_opening := [];
       v_closing := ["C"]; v_replacing := [] |}.

(** While [C] is still closing, the owner hands over a new array
    [[A, B]]. *)
Definition reinserted : State :=
  derivedState (props 3 [A; B] 1 [("A", plain); ("B", plain)]) afterPopC
    {| v_routes := [A; C; B]; v_opening := [];
       v_closing := ["C"]; v_replacing := [] |}.

Definition afterPopB : State :=
  derivedState popB afterPopC
    {| v_routes := [A; B]; v_opening := [];
       v_closing := ["C"; "B"]; v_replacing := [] |}.

End Sample.

(** ** Lemmas on the array primitives *)

Section KeyLists.

Lemma includes_In (keys : list string) (k : string) :
  includes keys k = true <-> In k keys.
Proof.
  unfold includes. rewrite existsb_exists. split.
  - intros (x & Hx & Heq). apply String.eqb_eq in Heq. now subst.
  - intros H. exists k. split; [assumption | apply String.eqb_refl].
Qed.

Lemma In_without (k x : string) (keys : list string) :
  In x (without k keys) <-> In x keys /\ x <> k.
Proof.
  unfold without. rewrite filter_In, negb_true_iff, String.eqb_neq.
  reflexivity.
Qed.

Lemma without_incl (k : string) (keys : list string) :
  incl (without k keys) keys.
Proof. intros x Hx. now apply In_without in Hx. Qed.

Lemma findByKey_In (rs : list Route) (k : string) :
  (exists r, findByKey rs k = Some r) <-> In k (routeKeys rs).
Proof.
  unfold findByKey, routeKeys. induction rs as [|r rs IH]; simpl.
  - split; [intros [? ?]; discriminate | intros []].
  - destruct (String.eqb_spec (key r) k) as [Heq|Hne].
    + split; [now left | eauto].
    + rewrite IH. split; [now right | intros [?|?]; [contradiction | assumption]].
Qed.

Lemma findByKey_None (rs : list Route) (k : string) :
  findByKey rs k = None <-> ~ In k (routeKeys rs).
Proof.
  rewrite <- findByKey_In. destruct (findByKey rs k); split.
  - discriminate.
  - intros H. exfalso. eauto.
  - intros _ [r Hr]. discriminate.
  - reflexivity.
Qed.

Lemma lastRoute_In (rs : list Route) (r : Route) :
  lastRoute rs = Some r -> In r rs.
Proof.
  unfold lastRoute. intros H. apply last_Some in H as [l' ->].
  apply in_or_app. right. now left.
Qed.

Lemma In_splice0 {A} (l : list A) (start : Z) (items : list A) (x : A) :
  In x (splice0 l start items) <-> In x l \/ In x items.
Proof.
  unfold splice0. set (k := clampIndex _ _).
  rewrite <- (firstn_skipn k l) at 3.
  rewrite !in_app_iff. tauto.
Qed.

Lemma getDescriptor_proto (m : DescriptorMap) :
  getDescriptor m "__proto__" = inherited.
Proof. reflexivity. Qed.

Lemma getDescriptor_setDescriptor (acc : DescriptorMap) (k' k : string)
  (v : Value) :
  getDescriptor (setDescriptor acc k' v) k =
  if String.eqb k k'
  then (if String.eqb k "__proto__" then inherited else v)
  else getDescriptor acc k.
Proof.
  unfold getDescriptor, setDescriptor.
  destruct (String.eqb_spec k k') as [->|Hne].
  - destruct (String.eqb k' "__proto__"); [reflexivity|].
    now rewrite lookup_insert_eq.
  - destruct (String.eqb k "__proto__"); [reflexivity|].
    destruct (String.eqb k' "__proto__"); [reflexivity|].
    rewrite lookup_insert_ne by congruence. reflexivity.
Qed.

(** The reducer stores, for every route key, the external value or, if
    that is [undefined], the retained one, and leaves every other key as
    in an empty object. *)
Lemma getDescriptor_mergeDescriptors (pd sd : DescriptorMap)
  (rs : list Route) (k : string) :
  getDescriptor (mergeDescriptors pd sd rs) k =
  if includes (routeKeys rs) k
  then orElse (getDescriptor pd k) (getDescriptor sd k)
  else getDescriptor ∅ k.
Proof.
  unfold mergeDescriptors.
  assert (G : forall acc : DescriptorMap,
    getDescriptor
      (fold_left
         (fun acc route =>
            setDescriptor acc (key route)
              (orElse (getDescriptor pd (key route))
                      (getDescriptor sd (key route))))
         rs acc) k =
    if includes (routeKeys rs) k
    then orElse (getDescriptor pd k) (getDescriptor sd k)
    else getDescriptor acc k).
  { induction rs as [|r rs IH]; intros acc; simpl; [reflexivity|].
    rewrite IH. destruct (includes (routeKeys rs) k) eqn:Hin.
    - now rewrite orb_true_r.
    - rewrite orb_false_r, getDescriptor_setDescriptor.
      destruct (String.eqb_spec k (key r)) as [->|Hne]; [|reflexivity].
      destruct (String.eqb_spec (key r) "__proto__") as [E|_];
        [|reflexivity].
      rewrite E. reflexivity. }
  apply G.
Qed.

End KeyLists.

(** ** The shape of a reconciliation *)

Section Reconcile.

Variables (props : Props) (state : State).

Lemma focusChanged_Some (pfo nfo : option Route) (pf nf : Route) :
  focusChanged pfo nfo = Ok (Some (pf, nf)) ->
  pfo = Some pf /\ nfo = Some nf /\ key pf <> key nf.
Proof.
  unfold focusChanged. destruct pfo as [p|]; [|discriminate].
  destruct nfo as [n|]; [|discriminate].
  destruct (String.eqb_spec (key p) (key n)); simpl; [discriminate|].
  intros H. injection H as <- <-. auto.
Qed.

Lemma slowPath_Ok (d : Derived) :
  slowPath props state = Ok d ->
  exists v,
    Branch props state (startVars props state) v /\
    v_routes v <> [] /\
    d = FullUpdate (derivedState props state v).
Proof.
  unfold slowPath. set (v0 := startVars props state).
  destruct (focusChanged _ _) as [changed|e] eqn:Hfc; cbn [rbind];
    [|discriminate].
  assert (Hend : forall v,
    Branch props state v0 v ->
    (if (length (v_routes v) =? 0)%nat
     then Throw (Error invariantMessage)
     else Ok (FullUpdate (derivedState props state v))) = Ok d ->
    exists v', Branch props state v0 v' /\ v_routes v' <> [] /\
               d = FullUpdate (derivedState props state v')).
  { intros v Hb H. exists v. destruct (v_routes v) eqn:Hr; simpl in H.
    - discriminate.
    - injection H as <-. repeat split; [assumption | discriminate]. }
  destruct changed as [[pf nf]|].
  - apply focusChanged_Some in Hfc as (Hpf & Hnf & Hne).
    destruct (findByKey (target (previousRoutes state)) (key nf)) eqn:Hnew.
    + destruct (findByKey (v_routes v0) (key pf)) eqn:Hold; cbn [rbind].
      * apply Hend. constructor.
      * destruct (popBranch props state pf v0) as [v|e] eqn:Hpop;
          cbn [rbind]; [|discriminate].
        apply Hend. now apply branch_pop with pf nf.
    + destruct (pushBranch props state pf nf v0) as [v|e] eqn:Hpush;
        cbn [rbind]; [|discriminate].
      apply Hend. now apply branch_push with pf nf.
  - destruct (keepBranch props state v0) as [v|e] eqn:Hkeep;
      cbn [rbind]; [|discriminate].
    apply Hend. now apply branch_keep.
Qed.

Lemma filterRoutes_incl (p : Route -> result bool) (rs kept : list Route) :
  filterRoutes p rs = Ok kept -> incl kept rs.
Proof.
  revert kept. induction rs as [|r rs IH]; intros kept H; cbn in H.
  - injection H as <-. apply incl_refl.
  - destruct (p r) as [keep|]; cbn [rbind] in H; [|discriminate].
    destruct (filterRoutes p rs) as [rest|]; cbn [rbind] in H;
      [|discriminate].
    injection H as <-. specialize (IH rest eq_refl).
    destruct keep; intros x Hx.
    + destruct Hx as [->|Hx]; [now left|right; now apply IH].
    + right. now apply IH.
Qed.

End Reconcile.

(** ** Entering and leaving keys *)

Ltac key_facts :=
  cbn [v_routes v_opening v_closing v_replacing] in *;
  repeat match goal with
    | H : In _ (without _ _) |- _ => apply In_without in H; destruct H
    | H : In _ (_ ++ _) |- _ => apply in_app_iff in H; destruct H
    | H : In _ (splice0 _ _ _) |- _ => apply In_splice0 in H; destruct H
    | H : In _ [_] |- _ => destruct H as [H|[]]
    | H : In _ [] |- _ => destruct H
    end.

(** Case analysis on a branch that returned. *)
Ltac invert_push H :=
  unfold pushBranch in H;
  match type of H with
  | rbind ?g _ = _ => destruct g as [[|]|] eqn:?Hanim
  end; cbn [rbind andb] in H;
  [ match type of H with
    | (if ?c then _ else _) = _ => destruct c eqn:?Hcond
    end;
    [ match type of H with
      | match findByKey ?rs ?k with _ => _ end = _ =>
          destruct (findByKey rs k) eqn:?Hprev
      end;
      [ | match type of H with
          | rbind ?g _ = _ => destruct g as [[|]|] eqn:?Hstyle
          end; cbn [rbind] in H ]
    | ]
  | | ];
  try discriminate H; injection H as <-.

Ltac invert_pop H :=
  unfold popBranch in H;
  match type of H with
  | rbind ?g _ = _ => destruct g as [[|]|] eqn:?Hanim
  end; cbn [rbind andb] in H;
  [ match type of H with
    | (if ?c then _ else _) = _ => destruct c eqn:?Hcond
    end
  | | ];
  try discriminate H; injection H as <-.

Ltac invert_keep H :=
  unfold keepBranch in H;
  match type of H with
  | (if ?c then _ else _) = _ => destruct c eqn:?Hmarked
  end;
  [ match type of H with
    | rbind ?g _ = _ => destruct g as [kept|] eqn:?Hkept
    end; cbn [rbind] in H
  | ];
  try discriminate H; injection H as <-.

Section Disjointness.

Lemma disjointKeys_shrink (xs ys xs' ys' : list string) :
  incl xs' xs -> incl ys' ys -> disjointKeys xs ys -> disjointKeys xs' ys'.
Proof. intros Hx Hy Hd k H1 H2. exact (Hd k (Hx k H1) (Hy k H2)). Qed.

Lemma Branch_disjoint props state v0 v :
  Branch props state v0 v ->
  disjointKeys (v_opening v0) (v_closing v0) ->
  disjointKeys (v_opening v) (v_closing v).
Proof.
  intros Hb Hd.
  destruct Hb as [pf nf v _ _ _ _ Hpush|pf nf v _ _ _ _ Hpop| |v Hkeep].
  - invert_push Hpush; intros k H1 H2; key_facts; subst;
      solve [eauto | congruence].
  - invert_pop Hpop; intros k H1 H2; key_facts; subst;
      solve [eauto | congruence].
  - assumption.
  - invert_keep Hkeep; assumption.
Qed.

Lemma derive_disjoint props state d :
  getDerivedStateFromProps props state = Ok d ->
  enteringLeavingDisjoint state ->
  enteringLeavingDisjoint (applyDerived state d).
Proof.
  unfold getDerivedStateFromProps, enteringLeavingDisjoint.
  destruct (routesUnchanged props state).
  - intros H. injection H as <-. unfold fastPath.
    destruct (negb _); simpl; auto.
  - intros H Hd. apply slowPath_Ok in H as (v & Hb & _ & ->). simpl.
    now apply (Branch_disjoint props state (startVars props state)).
Qed.

Lemma handleOpenRoute_Ok route state state' acts :
  handleOpenRoute route state = Ok (tt, state', acts) ->
  acts = [CompleteTransition (key route)] /\
  routes state' =
    (if negb (length (replacingRouteKeys state) =? 0)%nat
     then List.filter
            (fun r => negb (includes (replacingRouteKeys state) (key r)))
            (routes state)
     else routes state) /\
  openingRouteKeys state' = without (key route) (openingRouteKeys state) /\
  closingRouteKeys state' = without (key route) (closingRouteKeys state) /\
  replacingRouteKeys state' = [].
Proof.
  unfold handleOpenRoute, hbind, handleTransitionComplete, dispatch, setState.
  intros H. injection H as <- <-. repeat split.
Qed.

Lemma handleCloseRoute_Ok props route state state' acts :
  handleCloseRoute props route state = Ok (tt, state', acts) ->
  (state' = state /\ acts = [Pop (key route)]) \/
  (routes state' =
     List.filter (fun r => negb (String.eqb (key r) (key route)))
                 (routes state) /\
   openingRouteKeys state' = without (key route) (openingRouteKeys state) /\
   closingRouteKeys state' = without (key route) (closingRouteKeys state) /\
   replacingRouteKeys state' = replacingRouteKeys state).
Proof.
  unfold handleCloseRoute.
  destruct (findByKey _ _).
  - unfold dispatch. intros H. injection H as <- <-. now left.
  - unfold hbind, getState, handleTransitionComplete.
    destruct (routeAt _ _); [|discriminate].
    unfold dispatch, setState. intros H. injection H as <- _. right.
    repeat split.
Qed.

Lemma Step_disjoint state state' :
  Step state state' ->
  enteringLeavingDisjoint state -> enteringLeavingDisjoint state'.
Proof.
  intros Hs Hd. destruct Hs as [props state d H|route state state' acts H
                               |props route state state' acts H].
  - now apply (derive_disjoint props).
  - apply handleOpenRoute_Ok in H as (_ & _ & Ho & Hc & _).
    unfold enteringLeavingDisjoint. rewrite Ho, Hc.
    eapply disjointKeys_shrink; eauto using without_incl.
  - apply handleCloseRoute_Ok in H as [[-> _]|(_ & Ho & Hc & _)];
      [assumption|].
    unfold enteringLeavingDisjoint. rewrite Ho, Hc.
    eapply disjointKeys_shrink; eauto using without_incl.
Qed.

End Disjointness.

(** ** Keys of the three lists and the mounted routes *)

Section MountedKeys.

Lemma In_routeKeys (r : Route) (rs : list Route) :
  In r rs -> In (key r) (routeKeys rs).
Proof. apply in_map. Qed.

Lemma addedKeysMounted_incl (old new : list string) (rs : list Route) :
  incl new old -> addedKeysMounted old new rs.
Proof. intros H k Hk. left. now apply H. Qed.

Ltac mounted :=
  solve [ left; assumption
        | right; apply In_routeKeys;
          rewrite ?in_app_iff, ?In_splice0; simpl; auto ].

Lemma Branch_mounted props state v0 v :
  Branch props state v0 v ->
  addedKeysMounted (v_opening v0) (v_opening v) (v_routes v) /\
  addedKeysMounted (v_closing v0) (v_closing v) (v_routes v) /\
  addedKeysMounted (v_replacing v0) (v_replacing v) (v_routes v).
Proof.
  intros Hb.
  destruct Hb as [pf nf v _ Hnf _ _ Hpush|pf nf v _ _ _ _ Hpop| |v Hkeep].
  - apply lastRoute_In in Hnf.
    invert_push Hpush; repeat split; intros k Hk; key_facts; subst; mounted.
  - invert_pop Hpop; repeat split; intros k Hk; key_facts; subst; mounted.
  - repeat split; intros k Hk; mounted.
  - invert_keep Hkeep; repeat split; intros k Hk; key_facts; mounted.
Qed.

Lemma derive_mounted props state d :
  getDerivedStateFromProps props state = Ok d ->
  stepKeysMounted state (applyDerived state d).
Proof.
  unfold getDerivedStateFromProps, stepKeysMounted.
  destruct (routesUnchanged props state).
  - intros H. injection H as <-. unfold fastPath.
    destruct (negb _); simpl; repeat split; intros k Hk; now left.
  - intros H. apply slowPath_Ok in H as (v & Hb & _ & ->). simpl.
    now apply (Branch_mounted props state (startVars props state)).
Qed.

End MountedKeys.

(** ** Properties of the reconciler *)

Section ReplaceStyle.

Import Sample.

(** C1, as the specification words it, fails: rendered routes [[A]] are
    replaced by [[B]], the descriptor of [A] sets the replace style to
    "pop" and the descriptor of [B] sets none; the result is not
    [routes = [B, A]], [closingRouteKeys = [A]], [openingRouteKeys = []]. *)
Lemma replace_style_not_of_previous_route :
  ~ exists s,
      getDerivedStateFromProps
        (props 2 [B] 0 [("A", popStyle); ("B", plain)])
        (settled 1 [A] [("A", popStyle)]) = Ok (FullUpdate s)
      /\ routes s = [B; A]
      /\ closingRouteKeys s = ["A"]
      /\ openingRouteKeys s = [].
Proof.
  intros (s & H & Hr & _). vm_compute in H. injection H as <-.
  vm_compute in Hr. discriminate Hr.
Qed.

(** C1 (amended): in the push-like replace case (the focus changed, the
    new focused route was absent from the routes last seen, the
    previously focused route is absent from the truncated external
    routes, and the new route gets its entering animation), the replace
    style is looked up from the descriptor of the NEW focused route,
    external descriptor first, then the retained one, default "push";
    a missing descriptor throws. With "pop" the old route is appended
    and marked closing and the new key is not left in the opening keys;
    otherwise the old route is inserted before the focused route and
    marked replacing. *)
Theorem replace_style_of_next_route (props : Props) (state : State)
  (pf nf : Route) :
  routesUnchanged props state = false ->
  lastRoute (target (previousRoutes state)) = Some pf ->
  lastRoute (truncated (p_state props)) = Some nf ->
  key pf <> key nf ->
  findByKey (target (previousRoutes state)) (key nf) = None ->
  findByKey (truncated (p_state props)) (key pf) = None ->
  isAnimationEnabled props state (key nf) = Ok true ->
  includes (openingRouteKeys state) (key nf) = false ->
  getDerivedStateFromProps props state =
  match getAnimationTypeForReplace props state (key nf) with
  | Throw e => Throw e
  | Ok pop =>
      Ok (FullUpdate (derivedState props state
        {| v_routes := truncated (p_state props) ++ [pf];
           v_opening :=
             without (key nf)
               (without (key pf) (openingRouteKeys state ++ [key nf]));
           v_closing :=
             without (key nf) (closingRouteKeys state) ++ [key pf];
           v_replacing := without (key nf) (replacingRouteKeys state) |}))
  | Ok push =>
      Ok (FullUpdate (derivedState props state
        {| v_routes :=
             removelast (truncated (p_state props)) ++ [pf; nf];
           v_opening :=
             without (key pf) (openingRouteKeys state ++ [key nf]);
           v_closing :=
             without (key pf)
               (without (key nf) (closingRouteKeys state));
           v_replacing :=
             without (key nf) (replacingRouteKeys state) ++ [key pf] |}))
  end.
Proof.
  intros Hslow Hpf Hnf Hne Hnew Hgone Hanim Hopen.
  unfold getDerivedStateFromProps. rewrite Hslow.
  unfold slowPath. cbn [startVars v_routes].
  rewrite Hpf, Hnf. unfold focusChanged.
  apply String.eqb_neq in Hne. rewrite Hne. cbn [negb rbind].
  rewrite Hnew. unfold pushBranch. cbn [startVars v_routes v_opening
    v_closing v_replacing]. rewrite Hanim. cbn [rbind].
  rewrite Hopen, Hgone. cbn [negb andb].
  destruct (getAnimationTypeForReplace props state (key nf)) as [[|]|e];
    cbn [rbind v_routes]; [| |reflexivity].
  - apply last_Some in Hnf as [l' Hl']. rewrite Hl'.
    replace (splice0 _ _ _) with (l' ++ [pf; nf]).
    + rewrite removelast_last.
      destruct (l' ++ [pf; nf]) eqn:E; [now destruct l'|reflexivity].
    + unfold splice0, clampIndex. rewrite length_app. simpl length.
      replace (Z.of_nat (length l' + 1) - 1)%Z with (Z.of_nat (length l'))
        by lia.
      replace (if (Z.of_nat (length l') <? 0)%Z
               then Z.max (Z.of_nat (length l' + 1) + Z.of_nat (length l')) 0
               else Z.min (Z.of_nat (length l')) (Z.of_nat (length l' + 1)))
        with (Z.of_nat (length l')).
      * rewrite Nat2Z.id. rewrite firstn_app, skipn_app.
        rewrite firstn_all, skipn_all, Nat.sub_diag. simpl.
        now rewrite app_nil_r.
      * destruct (Z.ltb_spec (Z.of_nat (length l')) 0); lia.
  - destruct (truncated (p_state props) ++ [pf]) eqn:E;
      [now destruct (truncated (p_state props))|reflexivity].
Qed.

End ReplaceStyle.

Section ReplaceStyleWitness.

Import Sample.

(** [A] is replaced by [B] and the descriptor of [B] asks for "pop". *)
Lemma replace_style_of_next_route_witness :
  let p := props 2 [B] 0 [("A", plain); ("B", popStyle)] in
  let st := settled 1 [A] [("A", plain)] in
  getDerivedStateFromProps p st =
  Ok (FullUpdate (derivedState p st
        {| v_routes := [B; A];
           v_opening := [];
           v_closing := ["A"];
           v_replacing := [] |})).
Proof.
  intros p st.
  refine (replace_style_of_next_route p st A B _ _ _ _ _ _ _ _);
    try reflexivity.
  discriminate.
Defined.

End ReplaceStyleWitness.

Section NonEmpty.

Import Sample.

(** Whatever the reconciler returns leaves a non-empty route list. *)
Lemma derived_routes_nonempty (props : Props) (state : State) (d : Derived) :
  getDerivedStateFromProps props state = Ok d ->
  routes (applyDerived state d) <> [].
Proof.
  unfold getDerivedStateFromProps.
  destruct (routesUnchanged props state) eqn:Hfast.
  - intros H. injection H as <-.
    assert (Hne : routes state <> []).
    { unfold routesUnchanged in Hfast. apply andb_prop in Hfast as [_ Hlen].
      intros E. rewrite E in Hlen. discriminate. }
    unfold fastPath. destruct (negb _); exact Hne.
  - intros H. apply slowPath_Ok in H as (v & _ & Hne & ->). exact Hne.
Qed.

Lemma filterRoutes_Error (props : Props) (state : State) (v : Vars)
  (rs : list Route) (m : string) :
  filterRoutes (stillAnimating props state v) rs <> Throw (Error m).
Proof.
  induction rs as [|r rs IH]; cbn; [discriminate|].
  unfold stillAnimating at 1, isAnimationEnabled.
  destruct (orElse _ _) as [|descriptor|]; cbn [rbind]; try discriminate;
    try (destruct (animationEnabled (options descriptor)) as [[|]|];
         cbn [rbind]);
    destruct (filterRoutes _ rs) as [rest|[|m']]; cbn [rbind];
    try discriminate; intros E; apply IH; exact E.
Qed.

(** The only [Error] the slow path throws is the invariant error. *)
Lemma slowPath_Error (props : Props) (state : State) (m : string) :
  slowPath props state = Throw (Error m) -> m = invariantMessage.
Proof.
  assert (Hanim : forall k, isAnimationEnabled props state k
                            <> Throw (Error m)).
  { intros k. unfold isAnimationEnabled.
    destruct (orElse _ _) as [|descriptor|]; try discriminate.
    destruct (animationEnabled (options descriptor)) as [[|]|];
      discriminate. }
  unfold slowPath.
  destruct (focusChanged _ _) as [changed|e] eqn:Hfc; cbn [rbind].
  - match goal with
    | |- rbind ?g _ = _ -> _ => destruct g as [v|e] eqn:Hv
    end; cbn [rbind].
    + destruct (length (v_routes v) =? 0)%nat; [|discriminate].
      intros H. now injection H as <-.
    + intros H. injection H as ->. exfalso.
      destruct changed as [[pf nf]|].
      * destruct (findByKey _ (key nf)).
        -- destruct (findByKey _ (key pf)); [discriminate|].
           unfold popBranch in Hv.
           destruct (isAnimationEnabled props state (key pf)) as [b|e]
             eqn:E; cbn [rbind] in Hv.
           ++ destruct (_ && _); discriminate.
           ++ injection Hv as ->. now apply (Hanim (key pf)).
        -- unfold pushBranch in Hv.
           destruct (isAnimationEnabled props state (key nf)) as [b|e]
             eqn:E; cbn [rbind] in Hv.
           ++ destruct (_ && _); [|discriminate].
              destruct (findByKey _ _); [discriminate|].
              unfold getAnimationTypeForReplace in Hv.
              destruct (orElse _ _); try discriminate.
              cbn [rbind] in Hv. destruct (default _ _); discriminate.
           ++ injection Hv as ->. now apply (Hanim (key nf)).
      * unfold keepBranch in Hv. destruct (_ || _); [|discriminate].
        destruct (filterRoutes _ _) as [kept|e] eqn:E; cbn [rbind] in Hv;
          [discriminate|].
        injection Hv as ->. now apply filterRoutes_Error in E.
  - intros H. injection H as ->. unfold focusChanged in Hfc.
    destruct (lastRoute _); [|discriminate].
    destruct (lastRoute _); [|discriminate].
    destruct (negb _); discriminate.
Qed.

(** The reconciler ends in one of three ways. *)
Lemma reconcile_outcomes (props : Props) (state : State) :
  (exists d, getDerivedStateFromProps props state = Ok d
             /\ routes (applyDerived state d) <> [])
  \/ getDerivedStateFromProps props state = Throw (Error invariantMessage)
  \/ getDerivedStateFromProps props state = Throw TypeError.
Proof.
  destruct (getDerivedStateFromProps props state) as [d|[|m]] eqn:H.
  - left. exists d. split; [reflexivity|].
    now apply (derived_routes_nonempty props).
  - right. right. reflexivity.
  - right. left. unfold getDerivedStateFromProps in H.
    destruct (routesUnchanged props state); [discriminate|].
    apply slowPath_Error in H. now subst.
Qed.

(** C2 fails on the code: the view is mounted with [[A]] and the
    external owner then removes the only route. The read of
    [nextFocusedRoute.key] throws a [TypeError] before the check that
    raises the invariant error is reached, so the reconciler neither
    returns a state nor raises the invariant error. *)
Theorem popped_only_route_throws_TypeError :
  Reachable (settled 1 [A] [("A", plain)]) /\
  getDerivedStateFromProps (props 2 [] 0 []) (settled 1 [A] [("A", plain)])
  = Throw TypeError.
Proof.
  split.
  - apply reach_step with initialState; [apply reach_init|].
    exact (step_derive (props 1 [A] 0 [("A", plain)]) initialState
             (FullUpdate (settled 1 [A] [("A", plain)])) eq_refl).
  - vm_compute. reflexivity.
Qed.

End NonEmpty.

Section FastPath.

(** C3: when the external routes are identity-equal to the ones seen by
    the previous call and the rendered route list is non-empty, the
    reconciler changes neither the route list nor any of the three key
    lists. The descriptor map is kept when the external descriptors are
    identity-equal too; otherwise it is rebuilt, and then a rendered
    route whose key has an external descriptor gets that descriptor,
    also when another one was retained, and a rendered route whose key
    has nothing in the external map keeps what was retained for it. A
    second call with the same props then returns [null]: it yields the
    identical render state. *)
Theorem fast_path_idempotent (props : Props) (state : State) :
  same_ref (ns_routes (p_state props)) (previousRoutes state) = true ->
  routes state <> [] ->
  exists d,
    getDerivedStateFromProps props state = Ok d /\
    let state' := applyDerived state d in
    routes state' = routes state /\
    previousRoutes state' = previousRoutes state /\
    openingRouteKeys state' = openingRouteKeys state /\
    closingRouteKeys state' = closingRouteKeys state /\
    replacingRouteKeys state' = replacingRouteKeys state /\
    (same_ref (p_descriptors props) (previousDescriptors state) = true ->
     descriptors state' = descriptors state) /\
    (same_ref (p_descriptors props) (previousDescriptors state) = false ->
     forall r, In r (routes state) ->
       (forall external,
          getDescriptor (target (p_descriptors props)) (key r)
            = object external ->
          getDescriptor (descriptors state') (key r) = object external) /\
       (getDescriptor (target (p_descriptors props)) (key r) = undefined ->
        getDescriptor (descriptors state') (key r)
          = getDescriptor (descriptors state) (key r))) /\
    getDerivedStateFromProps props state' = Ok NoUpdate /\
    applyDerived state' NoUpdate = state'.
Proof.
  intros Hsame Hne.
  assert (Hfast : routesUnchanged props state = true).
  { unfold routesUnchanged. rewrite Hsame.
    destruct (routes state); [contradiction|reflexivity]. }
  exists (fastPath props state). unfold getDerivedStateFromProps.
  rewrite Hfast. split; [reflexivity|].
  unfold fastPath.
  destruct (same_ref (p_descriptors props) (previousDescriptors state))
    eqn:Hdesc; cbn [negb applyDerived routes previousRoutes openingRouteKeys
                    closingRouteKeys replacingRouteKeys descriptors
                    previousDescriptors].
  - repeat split; try reflexivity; try discriminate.
    rewrite Hfast. unfold fastPath. now rewrite Hdesc.
  - split; [reflexivity|]. split; [reflexivity|]. split; [reflexivity|].
    split; [reflexivity|]. split; [reflexivity|].
    split; [discriminate|]. split; [|split; [|reflexivity]].
    + intros _ r Hr. apply In_routeKeys, includes_In in Hr.
      rewrite getDescriptor_mergeDescriptors, Hr.
      split; [intros external E|intros E]; rewrite E; reflexivity.
    + unfold routesUnchanged in *.
      cbn [routes previousRoutes]. rewrite Hfast. unfold fastPath.
      cbn [previousDescriptors]. unfold same_ref. now rewrite Nat.eqb_refl.
Qed.

End FastPath.

Section FastPathWitness.

Import Sample.

(** [C] was popped and is still rendered; the owner hands over new
    descriptors, with gestures set for [B] and nothing for [C], and the
    same routes: [B] gets the new descriptor, [C] keeps the retained
    one. *)
Lemma fast_path_idempotent_witness :
  let p := mkProps (p_state popC)
             (mkRef 5 (table [("A", plain); ("B", withGestures)])) in
  exists d,
    getDerivedStateFromProps p afterPopC = Ok d /\
    getDescriptor (descriptors (applyDerived afterPopC d)) "B"
      = object withGestures /\
    getDescriptor (descriptors (applyDerived afterPopC d)) "C"
      = object plain /\
    getDerivedStateFromProps p (applyDerived afterPopC d) = Ok NoUpdate.
Proof.
  intros p.
  destruct (fast_path_idempotent p afterPopC)
    as (d & Hd & _ & _ & _ & _ & _ & _ & Hmerge & Hnull & _).
  - reflexivity.
  - discriminate.
  - exists d. split; [exact Hd|].
    split; [|split; [|exact Hnull]].
    + apply (Hmerge eq_refl B); [simpl; auto|reflexivity].
    + exact (eq_trans
               (proj2 (Hmerge eq_refl C ltac:(simpl; auto)) eq_refl)
               eq_refl).
Defined.

End FastPathWitness.

(** ** Invariants of the reachable states *)

Section ReachableStates.

Import Sample.

(** C4: in every state the view reaches through the reconciler and the
    two handlers, no key is both in the opening (entering) keys and in
    the closing (leaving) keys. *)
Theorem entering_leaving_disjoint (s : State) :
  Reachable s -> enteringLeavingDisjoint s.
Proof.
  induction 1 as [|state state' _ IH Hstep].
  - intros k [].
  - exact (Step_disjoint state state' Hstep IH).
Qed.

(** Mounting with [[A]] and pushing [B]. *)
Lemma pushed_reachable :
  Reachable
    (derivedState (props 2 [A; B] 1 [("A", plain); ("B", plain)])
       (settled 1 [A] [("A", plain)])
       {| v_routes := [A; B]; v_opening := ["B"];
          v_closing := []; v_replacing := [] |}).
Proof.
  eapply reach_step;
    [eapply reach_step; [apply reach_init|]|].
  - exact (step_derive (props 1 [A] 0 [("A", plain)]) initialState
             (FullUpdate (settled 1 [A] [("A", plain)])) eq_refl).
  - exact (step_derive (props 2 [A; B] 1 [("A", plain); ("B", plain)])
             (settled 1 [A] [("A", plain)]) (FullUpdate _) eq_refl).
Defined.

Lemma entering_leaving_disjoint_witness :
  enteringLeavingDisjoint
    (derivedState (props 2 [A; B] 1 [("A", plain); ("B", plain)])
       (settled 1 [A] [("A", plain)])
       {| v_routes := [A; B]; v_opening := ["B"];
          v_closing := []; v_replacing := [] |}).
Proof. apply entering_leaving_disjoint. exact pushed_reachable. Defined.

Lemma afterPopB_reachable : Reachable afterPopB.
Proof.
  apply reach_step with afterPopC;
    [apply reach_step with mounted3;
       [apply reach_step with initialState; [apply reach_init|]|]|].
  - exact (step_derive
             (props 1 [A; B; C] 2 [("A", plain); ("B", plain); ("C", plain)])
             initialState (FullUpdate mounted3) eq_refl).
  - exact (step_derive popC mounted3 (FullUpdate afterPopC) eq_refl).
  - exact (step_derive popB afterPopC (FullUpdate afterPopB) eq_refl).
Qed.

(** C9, as the specification words it, fails: after two pops in a row
    the key of [C] is still in the closing keys, and [C] is no longer in
    the route list. *)
Lemma stale_closing_key_reachable :
  ~ forall s, Reachable s -> keysMounted s.
Proof.
  intros H. specialize (H afterPopB afterPopB_reachable "C").
  vm_compute in H.
  destruct H as [E|[E|[]]]; [right; left; left; reflexivity| |];
    discriminate E.
Qed.

(** C9 (amended): in every step of the reconciler or of a handler, a key
    found in the opening, closing or replacing keys afterwards either
    was in that list before the step or is the key of a route in the
    resulting route list. Keys carried over from earlier steps may have
    lost their route. *)
Theorem added_keys_mounted (s s' : State) :
  Step s s' -> stepKeysMounted s s'.
Proof.
  intros Hs. destruct Hs as [props state d H|route state state' acts H
                            |props route state state' acts H].
  - now apply (derive_mounted props).
  - apply handleOpenRoute_Ok in H as (_ & _ & Ho & Hc & Hr).
    unfold stepKeysMounted. rewrite Ho, Hc, Hr.
    repeat split; apply addedKeysMounted_incl;
      auto using without_incl, incl_nil_l.
  - apply handleCloseRoute_Ok in H as [[-> _]|(_ & Ho & Hc & Hr)].
    + repeat split; apply addedKeysMounted_incl; apply incl_refl.
    + unfold stepKeysMounted. rewrite Ho, Hc, Hr.
      repeat split; apply addedKeysMounted_incl;
        auto using without_incl, incl_refl.
Qed.

Lemma added_keys_mounted_witness : stepKeysMounted afterPopC afterPopB.
Proof.
  apply added_keys_mounted.
  exact (step_derive popB afterPopC (FullUpdate afterPopB) eq_refl).
Defined.

End ReachableStates.

(** ** Push, pop and replace between two routes *)

Section TwoRoutes.

Variables A B : Route.
Hypothesis distinct : key A <> key B.

(** The identities of the route array seen last and of the next one. *)
Variables seenId nextId : nat.
Hypothesis fresh : nextId <> seenId.

Variables (seenDescriptors externalDescriptors : Ref DescriptorMap)
          (retained : DescriptorMap).

Local Abbreviation external rs i :=
  (mkProps (mkNavigationState (mkRef nextId rs) i) externalDescriptors).

Local Abbreviation rendered rs :=
  (settledState (mkRef seenId rs) seenDescriptors retained).

Lemma eqb_AB : String.eqb (key A) (key B) = false.
Proof. now apply String.eqb_neq. Qed.

Lemma eqb_BA : String.eqb (key B) (key A) = false.
Proof. apply String.eqb_neq. congruence. Qed.

Lemma eqb_ids : Nat.eqb nextId seenId = false.
Proof. now apply Nat.eqb_neq. Qed.

(** Evaluation with the two keys left abstract. *)
Ltac run :=
  repeat (cbv -[isAnimationEnabled getAnimationTypeForReplace
                mergeDescriptors String.eqb Nat.eqb key];
          rewrite ?eqb_AB, ?eqb_BA, ?eqb_ids, ?String.eqb_refl).

Ltac norm H :=
  cbv -[isAnimationEnabled getAnimationTypeForReplace
        mergeDescriptors String.eqb Nat.eqb key] in H.



(** The replace with the default style when [B] has a descriptor:
    rendered routes [[A]] at rest, external update to [[B]] with
    animation enabled for [B] and a replace style other than "pop" in
    the descriptor of [B]: the result renders [[A, B]], [A] is the only
    replacing key and [B] the only opening key. When the entrance of
    [B] then completes, the handler acknowledges the transition for
    [B], drops the replaced route and clears the replacing keys: the
    routes are [[B]]. *)
Lemma replace_covers_old_route :
  isAnimationEnabled (external [B] 0) (rendered [A]) (key B) = Ok true ->
  getAnimationTypeForReplace (external [B] 0) (rendered [A]) (key B)
    = Ok push ->
  exists s1,
    getDerivedStateFromProps (external [B] 0) (rendered [A])
      = Ok (FullUpdate s1) /\
    routes s1 = [A; B] /\
    replacingRouteKeys s1 = [key A] /\
    openingRouteKeys s1 = [key B] /\
    closingRouteKeys s1 = [] /\
    exists s2,
      handleOpenRoute B s1 = Ok (tt, s2, [CompleteTransition (key B)]) /\
      routes s2 = [B] /\
      replacingRouteKeys s2 = [] /\
      openingRouteKeys s2 = [] /\
      closingRouteKeys s2 = [].
Proof.
  unfold settledState. intros Hanim Hstyle.
  norm Hanim. norm Hstyle. eexists. split.
  - run. rewrite Hanim. run. rewrite Hstyle. run. reflexivity.
  - run. repeat split. eexists. split.
    + run. reflexivity.
    + run. repeat split.
Qed.

End TwoRoutes.

(** ** The exit handler and the gesture query *)

Section ExitAheadOfOwner.

(** C7: when the exit of a route completes while its key is still among
    the external routes, the handler dispatches [pop] for that key and
    nothing else, and the component state is left as it was. *)
Theorem close_of_present_route_pops (props : Props) (route : Route)
  (state : State) :
  In (key route) (routeKeys (target (ns_routes (p_state props)))) ->
  handleCloseRoute props route state = Ok (tt, state, [Pop (key route)]).
Proof.
  intros Hin. apply findByKey_In in Hin as [r Hr].
  unfold handleCloseRoute. rewrite Hr. reflexivity.
Qed.

(** When the lookup of the key among the retained descriptors gives
    [undefined], gestures are disabled, on every platform. *)
Lemma gestures_disabled_without_descriptor (platformOS : string)
  (state : State) (route : Route) :
  getDescriptor (descriptors state) (key route) = undefined ->
  getGesturesEnabled platformOS state route = Ok false.
Proof. unfold getGesturesEnabled. now intros ->. Qed.

End ExitAheadOfOwner.

(** ** The scenarios on concrete routes *)

Section Witnesses.

Import Sample.

Lemma distinctAB : key A <> key B.
Proof. discriminate. Defined.

Lemma fresh21 : 2 <> 1.
Proof. discriminate. Defined.



Lemma replace_covers_old_route_witness :
  exists s1,
    getDerivedStateFromProps
      (mkProps (mkNavigationState (mkRef 2 [B]) 0)
               (mkRef 2 (table [("B", plain)])))
      (settledState (mkRef 1 [A]) (mkRef 1 onlyA) onlyA)
      = Ok (FullUpdate s1) /\
    routes s1 = [A; B] /\
    replacingRouteKeys s1 = ["A"] /\
    openingRouteKeys s1 = ["B"] /\
    exists s2,
      handleOpenRoute B s1 = Ok (tt, s2, [CompleteTransition "B"]) /\
      routes s2 = [B] /\
      replacingRouteKeys s2 = [].
Proof.
  destruct (replace_covers_old_route A B distinctAB 1 2 fresh21
              (mkRef 1 onlyA) (mkRef 2 (table [("B", plain)])) onlyA
              eq_refl eq_refl)
    as (s1 & H1 & Hr & Hrep & Ho & _ & s2 & H2 & Hr2 & Hrep2 & _).
  exists s1. repeat split; try assumption.
  exists s2. repeat split; assumption.
Defined.

Lemma close_of_present_route_pops_witness :
  handleCloseRoute (props 1 [A; B] 1 [("A", plain); ("B", plain)]) B
    (settled 1 [A; B] [("A", plain); ("B", plain)])
  = Ok (tt, settled 1 [A; B] [("A", plain); ("B", plain)], [Pop "B"]).
Proof.
  apply (close_of_present_route_pops
           (props 1 [A; B] 1 [("A", plain); ("B", plain)]) B).
  simpl. right. left. reflexivity.
Defined.

Lemma gestures_disabled_without_descriptor_witness :
  getGesturesEnabled "ios" (settled 1 [A] [("A", plain)]) B = Ok false.
Proof.
  apply gestures_disabled_without_descriptor. vm_compute. reflexivity.
Defined.

(** C6 fails on the code: rendered routes [[A]] at rest, external update
    to [[B]], and no descriptor for [B] anywhere, so that animation
    counts as enabled and no "pop" style is configured. The reconciler
    does not render [[A, B]]: [getAnimationTypeForReplace] reads the
    options of the missing descriptor without the guard that
    [isAnimationEnabled] has, and throws a [TypeError]. *)
Theorem replace_without_descriptor_throws :
  isAnimationEnabled (props 2 [B] 0 []) (settled 1 [A] [("A", plain)]) "B"
    = Ok true
  /\ getDerivedStateFromProps (props 2 [B] 0 [])
       (settled 1 [A] [("A", plain)])
     = Throw TypeError.
Proof. split; vm_compute; reflexivity. Qed.

(** C10 fails on the code: nothing is retained for a route whose key is
    ["constructor"], yet the lookup in the retained descriptors, a
    plain object, finds the member inherited from [Object.prototype];
    it is truthy, and destructuring its missing [options] throws a
    [TypeError] where [false] was to be returned. *)
Theorem gestures_of_inherited_key_throw :
  descriptors (settled 1 [A] [("A", plain)]) !! "constructor" = None
  /\ getGesturesEnabled "ios" (settled 1 [A] [("A", plain)]) K
     = Throw TypeError.
Proof. split; vm_compute; reflexivity. Qed.

End Witnesses.

(** * Further properties of the view *)

(** ** The reconciler on repeated and first calls *)

Section ReconcileAgain.

Import Sample.

(** X1: whatever path the reconciler took, calling it again with the
    same props on the state it produced returns [null]. *)
Theorem reconcile_again_returns_null (props : Props) (state : State)
  (d : Derived) :
  getDerivedStateFromProps props state = Ok d ->
  getDerivedStateFromProps props (applyDerived state d) = Ok NoUpdate.
Proof.
  intros H. pose proof (derived_routes_nonempty props state d H) as Hne.
  unfold getDerivedStateFromProps in *.
  destruct (routesUnchanged props state) eqn:Hfast.
  - injection H as <-. unfold fastPath in *.
    destruct (same_ref (p_descriptors props) (previousDescriptors state))
      eqn:Hd; cbn [negb applyDerived] in *.
    + rewrite Hfast. unfold fastPath. now rewrite Hd.
    + unfold routesUnchanged in *. cbn [routes previousRoutes] in *.
      rewrite Hfast. unfold fastPath. cbn [previousDescriptors].
      unfold same_ref. now rewrite Nat.eqb_refl.
  - apply slowPath_Ok in H as (v & _ & _ & ->).
    cbn [applyDerived] in *. unfold routesUnchanged, fastPath, same_ref.
    cbn [derivedState routes previousRoutes previousDescriptors] in *.
    rewrite !Nat.eqb_refl. destruct (v_routes v); [contradiction|reflexivity].
Qed.

Lemma reconcile_again_returns_null_witness :
  getDerivedStateFromProps popB
    (applyDerived afterPopC (FullUpdate afterPopB)) = Ok NoUpdate.
Proof.
  apply (reconcile_again_returns_null popB afterPopC (FullUpdate afterPopB)).
  reflexivity.
Defined.

(** The lookups of a rebuilt descriptor map. *)
Lemma rebuilt_descriptor (props : Props) (state : State) (d : Derived)
  (k : string) :
  getDerivedStateFromProps props state = Ok d ->
  d <> NoUpdate ->
  getDescriptor (descriptors (applyDerived state d)) k =
  if includes (routeKeys (routes (applyDerived state d))) k
  then orElse (getDescriptor (target (p_descriptors props)) k)
              (getDescriptor (descriptors state) k)
  else getDescriptor ∅ k.
Proof.
  unfold getDerivedStateFromProps.
  destruct (routesUnchanged props state).
  - intros H Hd. injection H as <-. unfold fastPath in *.
    destruct (negb _); [|contradiction].
    cbn [applyDerived routes descriptors].
    apply getDescriptor_mergeDescriptors.
  - intros H _. apply slowPath_Ok in H as (v & _ & _ & ->).
    cbn [applyDerived derivedState routes descriptors].
    apply getDescriptor_mergeDescriptors.
Qed.

Lemma getDescriptor_empty (k : string) :
  getDescriptor ∅ k = if inheritedName k then inherited else undefined.
Proof.
  unfold getDescriptor.
  destruct (String.eqb_spec k "__proto__") as [->|_]; [reflexivity|].
  now rewrite lookup_empty.
Qed.

(** X2: when the reconciler rebuilds the descriptor map (on either
    path), a lookup under the key of a rendered route gives the
    external descriptor when the external map has one, whatever was
    retained; what was retained before when the external lookup gives
    [undefined]; and the inherited member when the external lookup
    gives one. A lookup under any other key that does not name a member
    of [Object.prototype] gives [undefined]: the descriptor of a route
    that is no longer rendered is forgotten. *)
Theorem rebuilt_descriptors_cover_rendered_routes (props : Props)
  (state : State) (d : Derived) (k : string) :
  getDerivedStateFromProps props state = Ok d ->
  d <> NoUpdate ->
  (In k (routeKeys (routes (applyDerived state d))) ->
   (forall external,
      getDescriptor (target (p_descriptors props)) k = object external ->
      getDescriptor (descriptors (applyDerived state d)) k
        = object external)
   /\ (getDescriptor (target (p_descriptors props)) k = undefined ->
       getDescriptor (descriptors (applyDerived state d)) k
         = getDescriptor (descriptors state) k)
   /\ (getDescriptor (target (p_descriptors props)) k = inherited ->
       getDescriptor (descriptors (applyDerived state d)) k = inherited))
  /\ (~ In k (routeKeys (routes (applyDerived state d))) ->
      inheritedName k = false ->
      getDescriptor (descriptors (applyDerived state d)) k = undefined).
Proof.
  intros H Hd. rewrite (rebuilt_descriptor props state d k H Hd). split.
  - intros Hin. apply includes_In in Hin. rewrite Hin.
    repeat split; [intros external E|intros E|intros E]; rewrite E;
      reflexivity.
  - intros Hout Hname.
    destruct (includes _ k) eqn:Hin;
      [exfalso; apply Hout; now apply includes_In|].
    now rewrite getDescriptor_empty, Hname.
Qed.

(** The owner pops [C] and hands over a descriptor with gestures for
    [B] and none for [C]: [B] gets the external descriptor, the closing
    [C] keeps the retained one, and nothing is kept for a key that is
    not rendered. *)
Lemma rebuilt_descriptors_cover_rendered_routes_witness :
  let p := mkProps (p_state popC)
             (mkRef 2 (table [("A", plain); ("B", withGestures)])) in
  exists s',
    getDerivedStateFromProps p mounted3 = Ok (FullUpdate s')
    /\ getDescriptor (descriptors s') "B" = object withGestures
    /\ getDescriptor (descriptors s') "C" = object plain
    /\ getDescriptor (descriptors s') "D" = undefined.
Proof.
  intros p. eexists. split; [reflexivity|].
  assert (Hd : FullUpdate
                 (derivedState p mounted3
                    {| v_routes := [A; B; C]; v_opening := [];
                       v_closing := ["C"]; v_replacing := [] |})
               <> NoUpdate) by discriminate.
  pose proof (rebuilt_descriptors_cover_rendered_routes p mounted3 _ "B"
                eq_refl Hd) as [HB _].
  pose proof (rebuilt_descriptors_cover_rendered_routes p mounted3 _ "C"
                eq_refl Hd) as [HC _].
  pose proof (rebuilt_descriptors_cover_rendered_routes p mounted3 _ "D"
                eq_refl Hd) as [_ HD].
  split; [|split].
  - apply HB; [simpl; auto|reflexivity].
  - apply (eq_trans (proj1 (proj2 (HC ltac:(simpl; auto))) eq_refl)).
    reflexivity.
  - apply HD; [|reflexivity].
    simpl. intros Hin; repeat destruct Hin as [Hin|Hin];
      try discriminate Hin; exact Hin.
Defined.

End ReconcileAgain.

(** ** Truncation, mounting and the origin of the rendered routes *)

Section RenderedRoutes.

Import Sample.

Lemma last_firstn_S {A} (l : list A) (n : nat) :
  n < length l -> last (firstn (S n) l) = nth_error l n.
Proof.
  revert n. induction l as [|x l IH]; intros n Hn; simpl in Hn; [lia|].
  destruct n as [|n].
  - destruct l; reflexivity.
  - assert (Hl : n < length l) by lia. specialize (IH n Hl).
    cbn [nth_error]. rewrite <- IH.
    destruct l as [|y l]; [simpl in Hl; lia|reflexivity].
Qed.

Lemma splice0_before_last {A} (l : list A) (x : A) (items : list A) :
  splice0 (l ++ [x]) (Z.of_nat (length (l ++ [x])) - 1) items
  = l ++ items ++ [x].
Proof.
  unfold splice0, clampIndex. rewrite length_app. cbn [length].
  replace (if (Z.of_nat (length l + 1) - 1 <? 0)%Z
           then Z.max (Z.of_nat (length l + 1)
                       + (Z.of_nat (length l + 1) - 1)) 0
           else Z.min (Z.of_nat (length l + 1) - 1)
                      (Z.of_nat (length l + 1)))
    with (Z.of_nat (length l)).
  - rewrite Nat2Z.id, firstn_app, skipn_app.
    rewrite firstn_all, skipn_all, Nat.sub_diag. simpl.
    now rewrite app_nil_r.
  - destruct (Z.ltb_spec (Z.of_nat (length l + 1) - 1) 0); lia.
Qed.

(** X3: with a focused index that is not negative, the truncated routes
    are the external routes up to and including the focused index, and
    when the index is within the list the focused route is the last of
    them. An index past the end leaves the list whole. *)
Theorem truncated_ends_at_focused_route (st : NavigationState) :
  (0 <= ns_index st)%Z ->
  truncated st
    = firstn (S (Z.to_nat (ns_index st))) (target (ns_routes st))
  /\ ((ns_index st < Z.of_nat (length (target (ns_routes st))))%Z ->
      lastRoute (truncated st)
        = nth_error (target (ns_routes st)) (Z.to_nat (ns_index st))).
Proof.
  intros Hi.
  assert (E : truncated st
    = firstn (S (Z.to_nat (ns_index st))) (target (ns_routes st))).
  { unfold truncated.
    destruct (Z.ltb_spec (ns_index st)
                (Z.of_nat (length (target (ns_routes st))) - 1)) as [Hlt|Hge].
    - unfold slice0, clampIndex.
      destruct (Z.ltb_spec (ns_index st + 1) 0) as [?|_]; [lia|].
      f_equal. lia.
    - symmetry. apply firstn_all2. lia. }
  split; [exact E|]. intros Hlt. rewrite E. unfold lastRoute.
  apply last_firstn_S. lia.
Qed.

Lemma truncated_ends_at_focused_route_witness :
  truncated (mkNavigationState (mkRef 1 [A; B; C]) 1) = [A; B]
  /\ ((1 < 3)%Z ->
      lastRoute (truncated (mkNavigationState (mkRef 1 [A; B; C]) 1))
        = Some B).
Proof.
  apply (truncated_ends_at_focused_route
           (mkNavigationState (mkRef 1 [A; B; C]) 1)).
  simpl. lia.
Defined.

(** X4: the first call after construction, with a non-empty truncated
    route list, renders exactly the truncated external routes and marks
    no key: nothing animates on mount. *)
Theorem mount_renders_external_routes (props : Props) :
  truncated (p_state props) <> [] ->
  getDerivedStateFromProps props initialState =
  Ok (FullUpdate
        {| routes := truncated (p_state props);
           previousRoutes := ns_routes (p_state props);
           previousDescriptors := p_descriptors props;
           openingRouteKeys := [];
           closingRouteKeys := [];
           replacingRouteKeys := [];
           descriptors :=
             mergeDescriptors (target (p_descriptors props)) ∅
                              (truncated (p_state props)) |}).
Proof.
  intros Hne. unfold getDerivedStateFromProps, routesUnchanged.
  cbn [initialState routes length Nat.eqb negb]. rewrite andb_false_r.
  unfold slowPath, startVars, keepBranch. cbn.
  destruct (truncated (p_state props)); [contradiction|reflexivity].
Qed.

Lemma mount_renders_external_routes_witness :
  getDerivedStateFromProps
    (props 1 [A; B; C] 2 [("A", plain); ("B", plain); ("C", plain)])
    initialState
  = Ok (FullUpdate mounted3).
Proof.
  refine (mount_renders_external_routes
            (props 1 [A; B; C] 2 [("A", plain); ("B", plain); ("C", plain)])
            _).
  discriminate.
Defined.

(** X5: the first call with an empty truncated route list (no external
    route, or a focused index of -1) raises the invariant error. *)
Theorem mount_without_routes_raises_invariant (props : Props) :
  truncated (p_state props) = [] ->
  getDerivedStateFromProps props initialState
  = Throw (Error invariantMessage).
Proof.
  intros He. unfold getDerivedStateFromProps, routesUnchanged.
  cbn [initialState routes length Nat.eqb negb]. rewrite andb_false_r.
  unfold slowPath, startVars, keepBranch. cbn. now rewrite He.
Qed.

Lemma mount_without_routes_raises_invariant_witness :
  getDerivedStateFromProps (props 1 [A; B] (-1) [("A", plain); ("B", plain)])
    initialState
  = Throw (Error invariantMessage).
Proof.
  apply mount_without_routes_raises_invariant. reflexivity.
Defined.

Lemma Branch_routes props state v0 v :
  Branch props state v0 v ->
  incl (v_routes v0) (v_routes v) /\
  forall r, In r (v_routes v) ->
    In r (v_routes v0)
    \/ lastRoute (target (previousRoutes state)) = Some r
    \/ In r (routes state).
Proof.
  intros Hb.
  destruct Hb as [pf nf v Hpf _ _ _ Hpush|pf nf v Hpf _ _ _ Hpop| |v Hkeep].
  - invert_push Hpush; cbn [v_routes]; split;
      try (intros x Hx; try apply In_splice0; try apply in_or_app; tauto);
      intros x Hx; key_facts; subst; tauto.
  - invert_pop Hpop; cbn [v_routes]; split;
      try (intros x Hx; try apply in_or_app; tauto);
      intros x Hx; key_facts; subst; tauto.
  - split; [apply incl_refl | tauto].
  - invert_keep Hkeep; cbn [v_routes]; split;
      try (intros x Hx; try apply In_splice0; tauto);
      intros x Hx; key_facts; try tauto.
    apply filterRoutes_incl in Hkept. right. right. now apply Hkept.
Qed.

(** X6: a full update keeps every route of the truncated external
    routes, and every route it renders is one of these, the route that
    was focused in the external routes seen before, or a route that was
    rendered before. *)
Theorem rendered_routes_origin (props : Props) (state s' : State) :
  getDerivedStateFromProps props state = Ok (FullUpdate s') ->
  incl (truncated (p_state props)) (routes s') /\
  forall r, In r (routes s') ->
    In r (truncated (p_state props))
    \/ lastRoute (target (previousRoutes state)) = Some r
    \/ In r (routes state).
Proof.
  unfold getDerivedStateFromProps.
  destruct (routesUnchanged props state).
  - unfold fastPath. destruct (negb _); discriminate.
  - intros H. apply slowPath_Ok in H as (v & Hb & _ & E).
    injection E as ->. cbn [derivedState routes].
    exact (Branch_routes props state (startVars props state) v Hb).
Qed.

Lemma rendered_routes_origin_witness :
  incl (truncated (p_state popB)) (routes afterPopB) /\
  forall r, In r (routes afterPopB) ->
    In r (truncated (p_state popB))
    \/ lastRoute (target (previousRoutes afterPopC)) = Some r
    \/ In r (routes afterPopC).
Proof.
  apply (rendered_routes_origin popB afterPopC afterPopB). reflexivity.
Defined.

End RenderedRoutes.

(** ** Focus changes that animate nothing, and unchanged focus *)

Section QuietUpdates.

Import Sample.

Variables (props : Props) (state : State).
Hypothesis changedRoutes : routesUnchanged props state = false.

(** The slow path up to the choice of the branch. *)
Lemma slowPath_focus_changed (pf nf : Route) :
  lastRoute (target (previousRoutes state)) = Some pf ->
  lastRoute (truncated (p_state props)) = Some nf ->
  key pf <> key nf ->
  getDerivedStateFromProps props state =
  rbind
    (match findByKey (target (previousRoutes state)) (key nf) with
     | None => pushBranch props state pf nf (startVars props state)
     | Some _ =>
         match findByKey (truncated (p_state props)) (key pf) with
         | None => popBranch props state pf (startVars props state)
         | Some _ => Ok (startVars props state)
         end
     end)
    (fun v =>
       if (length (v_routes v) =? 0)%nat
       then Throw (Error invariantMessage)
       else Ok (FullUpdate (derivedState props state v))).
Proof.
  intros Hpf Hnf Hne. unfold getDerivedStateFromProps.
  rewrite changedRoutes. unfold slowPath. cbn [startVars v_routes].
  rewrite Hpf, Hnf. unfold focusChanged.
  apply String.eqb_neq in Hne. rewrite Hne. reflexivity.
Qed.

Lemma lastRoute_length (rs : list Route) (r : Route) :
  lastRoute rs = Some r -> (length rs =? 0)%nat = false.
Proof. destruct rs; [discriminate|reflexivity]. Qed.

(** X7: when the focus moves between two routes that both were among
    the external routes seen before and both are among the truncated
    external routes now (a reorder), the view renders exactly the
    truncated external routes and no key list changes; routes that
    were still kept for their exit are dropped at once. *)
Theorem reorder_renders_external_routes (pf nf : Route) :
  lastRoute (target (previousRoutes state)) = Some pf ->
  lastRoute (truncated (p_state props)) = Some nf ->
  key pf <> key nf ->
  In (key nf) (routeKeys (target (previousRoutes state))) ->
  In (key pf) (routeKeys (truncated (p_state props))) ->
  getDerivedStateFromProps props state
  = Ok (FullUpdate (derivedState props state (startVars props state))).
Proof.
  intros Hpf Hnf Hne Hold Hstill.
  rewrite (slowPath_focus_changed pf nf Hpf Hnf Hne).
  apply findByKey_In in Hold as [r1 ->].
  apply findByKey_In in Hstill as [r2 ->].
  cbn [rbind startVars v_routes]. now rewrite (lastRoute_length _ nf Hnf).
Qed.

(** X8: on the slow path, when a new route comes to the focus and the
    reconciler's test says that animation is disabled for it, or says
    that it is enabled while the key is already among the opening keys,
    the view renders exactly the truncated external routes and no key
    list changes, also when the previously focused route was removed in
    the same update: no route is kept for a replace. *)
Theorem push_without_animation_is_immediate (pf nf : Route) :
  lastRoute (target (previousRoutes state)) = Some pf ->
  lastRoute (truncated (p_state props)) = Some nf ->
  key pf <> key nf ->
  ~ In (key nf) (routeKeys (target (previousRoutes state))) ->
  isAnimationEnabled props state (key nf) = Ok false
  \/ (isAnimationEnabled props state (key nf) = Ok true
      /\ In (key nf) (openingRouteKeys state)) ->
  getDerivedStateFromProps props state
  = Ok (FullUpdate (derivedState props state (startVars props state))).
Proof.
  intros Hpf Hnf Hne Hnew Hquiet.
  rewrite (slowPath_focus_changed pf nf Hpf Hnf Hne).
  apply findByKey_None in Hnew. rewrite Hnew. unfold pushBranch.
  destruct Hquiet as [->|[-> Hin]]; cbn [rbind andb startVars v_opening].
  - cbn [rbind startVars v_routes]. now rewrite (lastRoute_length _ nf Hnf).
  - apply includes_In in Hin. rewrite Hin.
    cbn [negb rbind startVars v_routes].
    now rewrite (lastRoute_length _ nf Hnf).
Qed.

(** X9: on the slow path, when the previously focused route was
    removed, the new focused route was known before, and the
    reconciler's test says that animation is disabled for the removed
    route, or says that it is enabled while its key is already among
    the closing keys, the view renders exactly the truncated external
    routes and no key list changes: the removed route is not kept. *)
Theorem pop_without_animation_is_immediate (pf nf : Route) :
  lastRoute (target (previousRoutes state)) = Some pf ->
  lastRoute (truncated (p_state props)) = Some nf ->
  key pf <> key nf ->
  In (key nf) (routeKeys (target (previousRoutes state))) ->
  ~ In (key pf) (routeKeys (truncated (p_state props))) ->
  isAnimationEnabled props state (key pf) = Ok false
  \/ (isAnimationEnabled props state (key pf) = Ok true
      /\ In (key pf) (closingRouteKeys state)) ->
  getDerivedStateFromProps props state
  = Ok (FullUpdate (derivedState props state (startVars props state))).
Proof.
  intros Hpf Hnf Hne Hold Hgone Hquiet.
  rewrite (slowPath_focus_changed pf nf Hpf Hnf Hne).
  apply findByKey_In in Hold as [r1 ->].
  apply findByKey_None in Hgone. rewrite Hgone. unfold popBranch.
  destruct Hquiet as [->|[-> Hin]]; cbn [rbind andb startVars v_closing].
  - cbn [rbind startVars v_routes]. now rewrite (lastRoute_length _ nf Hnf).
  - apply includes_In in Hin. rewrite Hin.
    cbn [negb rbind startVars v_routes].
    now rewrite (lastRoute_length _ nf Hnf).
Qed.

(** The filter of the unchanged-focus branch when the test of animation
    returns for every route it is asked about. *)
Lemma filterRoutes_stillAnimating (enabled : Route -> bool) (v : Vars)
  (rs : list Route) :
  (forall r, In r rs ->
     isAnimationEnabled props state (key r) = Ok (enabled r)) ->
  filterRoutes (stillAnimating props state v) rs =
  Ok (List.filter
        (fun r =>
           if enabled r
           then includes (v_replacing v) (key r)
                || includes (v_closing v) (key r)
           else false) rs).
Proof.
  induction rs as [|r rs IH]; intros Hen; [reflexivity|].
  cbn [filterRoutes List.filter]. unfold stillAnimating at 1.
  rewrite (Hen r (or_introl eq_refl)). cbn [rbind].
  rewrite IH by (intros r' Hr'; apply Hen; now right).
  reflexivity.
Qed.

Lemma kept_nil (enabled : Route -> bool) (rs : list Route) :
  List.filter
    (fun r =>
       if enabled r
       then includes [] (key r) || includes [] (key r)
       else false) rs = [].
Proof.
  induction rs as [|r rs IH]; [reflexivity|]. simpl.
  destruct (enabled r); exact IH.
Qed.

(** X10: on the slow path, when the focused key did not change and,
    in case some key is marked closing or replacing, the reconciler's
    test of animation returns for every previously rendered route, the
    key lists stay as they are and the view renders the truncated
    external routes with, inserted just before the focused route, every
    previously rendered route that is marked closing or replacing and
    has animation enabled; every other stale route is dropped and the
    focused route stays last. *)
Theorem unchanged_focus_keeps_marked_routes (pf nf : Route)
  (below : list Route) (enabled : Route -> bool) :
  lastRoute (target (previousRoutes state)) = Some pf ->
  truncated (p_state props) = below ++ [nf] ->
  key pf = key nf ->
  (replacingRouteKeys state <> [] \/ closingRouteKeys state <> [] ->
   forall r, In r (routes state) ->
     isAnimationEnabled props state (key r) = Ok (enabled r)) ->
  getDerivedStateFromProps props state =
  Ok (FullUpdate (derivedState props state
        {| v_routes :=
             below
             ++ List.filter
                  (fun r =>
                     if enabled r
                     then includes (replacingRouteKeys state) (key r)
                          || includes (closingRouteKeys state) (key r)
                     else false)
                  (routes state)
             ++ [nf];
           v_opening := openingRouteKeys state;
           v_closing := closingRouteKeys state;
           v_replacing := replacingRouteKeys state |})).
Proof.
  intros Hpf Htr Heq Hen. unfold getDerivedStateFromProps.
  rewrite changedRoutes. unfold slowPath, keepBranch, startVars.
  cbn [v_routes v_opening v_closing v_replacing].
  rewrite Hpf, !Htr. unfold lastRoute. rewrite last_snoc.
  unfold focusChanged. rewrite Heq, String.eqb_refl. cbn [negb rbind].
  assert (Hlast : forall mid : list Route,
            (length (below ++ mid ++ [nf]) =? 0)%nat = false).
  { intros mid. rewrite !length_app. cbn [length].
    apply Nat.eqb_neq. lia. }
  destruct (negb (length (replacingRouteKeys state) =? 0)%nat
            || negb (length (closingRouteKeys state) =? 0)%nat) eqn:Hmarked.
  - rewrite (filterRoutes_stillAnimating enabled).
    + cbn [rbind v_routes v_opening v_closing v_replacing].
      rewrite splice0_before_last, Hlast. reflexivity.
    + apply Hen. apply orb_prop in Hmarked as [H|H];
        apply negb_true_iff, Nat.eqb_neq in H; [left|right];
        intros E; rewrite E in H; now apply H.
  - apply orb_false_elim in Hmarked as [Hrep Hclo].
    destruct (replacingRouteKeys state); [|discriminate].
    destruct (closingRouteKeys state); [|discriminate].
    rewrite kept_nil. cbn [app rbind v_routes].
    specialize (Hlast []). cbn [app] in Hlast.
    rewrite Hlast. reflexivity.
Qed.

End QuietUpdates.

Section QuietUpdatesWitnesses.

Import Sample.

Lemma reorder_renders_external_routes_witness :
  let p := props 2 [B; A] 1 [("A", plain); ("B", plain)] in
  let st := settled 1 [A; B] [("A", plain); ("B", plain)] in
  getDerivedStateFromProps p st
  = Ok (FullUpdate (derivedState p st (startVars p st))).
Proof.
  intros p st.
  refine (reorder_renders_external_routes p st eq_refl B A eq_refl eq_refl
            _ _ _).
  - discriminate.
  - simpl. auto.
  - simpl. auto.
Defined.

Lemma push_without_animation_is_immediate_witness :
  let p := props 2 [A; B] 1 [("A", plain); ("B", noAnimation)] in
  let st := settled 1 [A] [("A", plain)] in
  getDerivedStateFromProps p st
  = Ok (FullUpdate (derivedState p st (startVars p st))).
Proof.
  intros p st.
  refine (push_without_animation_is_immediate p st eq_refl A B eq_refl
            eq_refl _ _ _).
  - discriminate.
  - simpl. intros [E|[]]. discriminate E.
  - left. reflexivity.
Defined.

Lemma pop_without_animation_is_immediate_witness :
  let p := props 2 [A] 0 [("A", plain)] in
  let st := settled 1 [A; B] [("A", plain); ("B", noAnimation)] in
  getDerivedStateFromProps p st
  = Ok (FullUpdate (derivedState p st (startVars p st))).
Proof.
  intros p st.
  refine (pop_without_animation_is_immediate p st eq_refl B A eq_refl
            eq_refl _ _ _ _).
  - discriminate.
  - simpl. auto.
  - simpl. intros [E|[]]. discriminate E.
  - left. reflexivity.
Defined.

(** After [C] was popped and is still closing, the owner hands over a
    new array [[A, B]]: [C] is kept below the focused [B]. *)
Lemma unchanged_focus_keeps_marked_routes_witness :
  getDerivedStateFromProps
    (props 3 [A; B] 1 [("A", plain); ("B", plain)]) afterPopC
  = Ok (FullUpdate reinserted).
Proof.
  refine (unchanged_focus_keeps_marked_routes
            (props 3 [A; B] 1 [("A", plain); ("B", plain)]) afterPopC
            eq_refl B B [A] (fun _ => true) eq_refl eq_refl eq_refl _).
  intros _ r Hr. simpl in Hr.
  repeat destruct Hr as [Hr|Hr]; try contradiction; subst r; reflexivity.
Defined.

End QuietUpdatesWitnesses.

(** ** More invariants of the reachable states *)

Section MoreInvariants.

Import Sample.

Lemma NoDup_snoc (l : list string) (x : string) :
  List.NoDup l -> ~ In x l -> List.NoDup (l ++ [x]).
Proof.
  induction l as [|a l IH]; intros Hnd Hx; simpl.
  - constructor; [intros []|constructor].
  - inversion Hnd as [|? ? Ha Hl]; subst. constructor.
    + rewrite in_app_iff. intros [Hin|[->|[]]].
      * now apply Ha.
      * apply Hx. now left.
    + apply IH; [assumption|]. intros Hin. apply Hx. now right.
Qed.

Lemma NoDup_without (k : string) (l : list string) :
  List.NoDup l -> List.NoDup (without k l).
Proof. apply List.NoDup_filter. Qed.

Lemma Branch_opening props state v0 v :
  Branch props state v0 v ->
  (disjointKeys (v_opening v0) (v_replacing v0) ->
   disjointKeys (v_opening v) (v_replacing v))
  /\ (List.NoDup (v_opening v0) -> List.NoDup (v_opening v)).
Proof.
  intros Hb.
  destruct Hb as [pf nf v _ _ _ _ Hpush|pf nf v _ _ _ _ Hpop| |v Hkeep].
  - invert_push Hpush; try (split; intros; assumption);
      apply negb_true_iff in Hcond;
      assert (Hnew : ~ In (key nf) (v_opening v0))
        by (rewrite <- includes_In; congruence);
      (split;
       [ intros Hd k H1 H2; key_facts; subst; solve [eauto | congruence]
       | intros Hnd; cbn [v_opening];
         repeat apply NoDup_without; now apply NoDup_snoc ]).
  - invert_pop Hpop; try (split; intros; assumption).
    split.
    + intros Hd k H1 H2. key_facts; subst; solve [eauto | congruence].
    + intros Hnd. cbn [v_opening]. now apply NoDup_without.
  - split; intros; assumption.
  - invert_keep Hkeep; split; intros; assumption.
Qed.

Lemma Step_opening state state' :
  Step state state' ->
  disjointKeys (openingRouteKeys state) (replacingRouteKeys state)
  /\ List.NoDup (openingRouteKeys state) ->
  disjointKeys (openingRouteKeys state') (replacingRouteKeys state')
  /\ List.NoDup (openingRouteKeys state').
Proof.
  intros Hs [Hd Hnd].
  destruct Hs as [props state d H|route state state' acts H
                 |props route state state' acts H].
  - unfold getDerivedStateFromProps in H.
    destruct (routesUnchanged props state).
    + injection H as <-. unfold fastPath. destruct (negb _); simpl; auto.
    + apply slowPath_Ok in H as (v & Hb & _ & ->). simpl.
      apply Branch_opening in Hb as [H1 H2]. auto.
  - apply handleOpenRoute_Ok in H as (_ & _ & Ho & _ & Hr).
    rewrite Ho, Hr. split; [intros k _ []|now apply NoDup_without].
  - apply handleCloseRoute_Ok in H as [[-> _]|(_ & Ho & _ & Hr)]; [auto|].
    rewrite Ho, Hr. split; [|now apply NoDup_without].
    apply (disjointKeys_shrink (openingRouteKeys state)
             (replacingRouteKeys state));
      [apply without_incl | apply incl_refl | assumption].
Qed.

(** X11: in every state the view reaches, no key is both among the
    opening keys and among the replacing keys, and no key occurs twice
    among the opening keys. *)
Theorem opening_keys_fresh (s : State) :
  Reachable s ->
  disjointKeys (openingRouteKeys s) (replacingRouteKeys s)
  /\ List.NoDup (openingRouteKeys s).
Proof.
  induction 1 as [|state state' _ IH Hstep].
  - split; [intros k []|constructor].
  - exact (Step_opening state state' Hstep IH).
Qed.

Lemma opening_keys_fresh_witness :
  disjointKeys (openingRouteKeys afterPopB) (replacingRouteKeys afterPopB)
  /\ List.NoDup (openingRouteKeys afterPopB).
Proof. apply opening_keys_fresh. exact afterPopB_reachable. Defined.

End MoreInvariants.

(** ** The completion handlers *)

Section Handlers.

Import Sample.

Lemma without_idem (k : string) (keys : list string) :
  without k (without k keys) = without k keys.
Proof.
  unfold without. induction keys as [|x keys IH]; [reflexivity|]. simpl.
  destruct (negb (String.eqb x k)) eqn:E; simpl; rewrite ?E, IH; reflexivity.
Qed.

Lemma not_In_without (k : string) (keys : list string) :
  ~ In k (without k keys).
Proof. intros H. apply In_without in H as [_ H]. now apply H. Qed.

(** X12: the entrance handler never throws. It acknowledges the
    transition of the route, and afterwards the key of the route is in
    neither the opening nor the closing keys, the replacing keys are
    empty, and the rendered routes are the earlier ones, in order,
    without those whose key was among the replacing keys. What the
    reconciler saw last and the retained descriptors are untouched. *)
Theorem open_handler_outcome (route : Route) (state : State) :
  exists state',
    handleOpenRoute route state
      = Ok (tt, state', [CompleteTransition (key route)]) /\
    routes state'
      = List.filter
          (fun r => negb (includes (replacingRouteKeys state) (key r)))
          (routes state) /\
    ~ In (key route) (openingRouteKeys state') /\
    ~ In (key route) (closingRouteKeys state') /\
    replacingRouteKeys state' = [] /\
    previousRoutes state' = previousRoutes state /\
    previousDescriptors state' = previousDescriptors state /\
    descriptors state' = descriptors state.
Proof.
  eexists. split; [reflexivity|].
  cbn [routes openingRouteKeys closingRouteKeys replacingRouteKeys
       previousRoutes previousDescriptors descriptors].
  repeat split; try apply not_In_without.
  destruct (replacingRouteKeys state) eqn:E; cbn [length Nat.eqb negb];
    [|reflexivity].
  induction (routes state) as [|r rs IH]; [reflexivity|].
  simpl. f_equal. exact IH.
Qed.

(** X13: a second call of the entrance handler for the same route
    dispatches the same acknowledgement and changes nothing. *)
Theorem open_handler_idempotent (route : Route) (state : State) :
  exists state' acts,
    handleOpenRoute route state = Ok (tt, state', acts) /\
    handleOpenRoute route state' = Ok (tt, state', acts).
Proof.
  eexists. eexists. split; [reflexivity|].
  unfold handleOpenRoute, hbind, handleTransitionComplete, dispatch,
    setState.
  cbn [routes openingRouteKeys closingRouteKeys replacingRouteKeys
       previousRoutes previousDescriptors descriptors length Nat.eqb negb
       app].
  now rewrite !without_idem.
Qed.

Lemma findIndexByKey_bounds (rs : list Route) (k : string) :
  (-1 <= findIndexByKey rs k < Z.of_nat (length rs))%Z.
Proof.
  induction rs as [|r rs IH]; cbn [findIndexByKey length]; [lia|].
  destruct (String.eqb (key r) k); [lia|].
  destruct (Z.ltb_spec (findIndexByKey rs k) 0); lia.
Qed.

Lemma findIndexByKey_absent (rs : list Route) (k : string) :
  ~ In k (routeKeys rs) -> findIndexByKey rs k = (-1)%Z.
Proof.
  induction rs as [|r rs IH]; intros Hk; cbn [findIndexByKey];
    [reflexivity|].
  destruct (String.eqb_spec (key r) k) as [E|_].
  - exfalso. apply Hk. now left.
  - rewrite IH; [reflexivity|]. intros Hin. apply Hk. now right.
Qed.

Lemma findIndexByKey_first (l rest : list Route) (r : Route) (k : string) :
  ~ In k (routeKeys l) -> key r = k ->
  findIndexByKey (l ++ r :: rest) k = Z.of_nat (length l).
Proof.
  induction l as [|a l IH]; intros Hk Hr; cbn [findIndexByKey app length].
  - now rewrite Hr, String.eqb_refl.
  - destruct (String.eqb_spec (key a) k) as [E|_].
    + exfalso. apply Hk. now left.
    + rewrite IH; [|intros Hin; apply Hk; now right|assumption].
      destruct (Z.ltb_spec (Z.of_nat (length l)) 0); lia.
Qed.

Lemma routeAt_middle (l rest : list Route) (r : Route) :
  routeAt (l ++ r :: rest) (Z.of_nat (length l)) = Some r.
Proof.
  unfold routeAt. destruct (Z.ltb_spec (Z.of_nat (length l)) 0); [lia|].
  rewrite Nat2Z.id, nth_error_app2 by lia. now rewrite Nat.sub_diag.
Qed.

Lemma routeAt_in_range (rs : list Route) (i : Z) :
  (0 <= i < Z.of_nat (length rs))%Z -> exists r, routeAt rs i = Some r.
Proof.
  intros Hi. unfold routeAt. destruct (Z.ltb_spec i 0); [lia|].
  destruct (nth_error rs (Z.to_nat i)) eqn:E; [eauto|].
  apply nth_error_None in E. lia.
Qed.

(** The exit handler when the route is absent from the external
    routes: the acknowledged route and the state it leaves. *)
Lemma handleCloseRoute_absent (props : Props) (route : Route)
  (state : State) :
  ~ In (key route) (routeKeys (target (ns_routes (p_state props)))) ->
  handleCloseRoute props route state =
  match routeAt (routes state)
          (Z.max (findIndexByKey (routes state) (key route) - 1) 0) with
  | Some r =>
      Ok (tt,
          {| routes :=
               List.filter (fun r => negb (String.eqb (key r) (key route)))
                           (routes state);
             previousRoutes := previousRoutes state;
             previousDescriptors := previousDescriptors state;
             openingRouteKeys := without (key route) (openingRouteKeys state);
             closingRouteKeys := without (key route) (closingRouteKeys state);
             replacingRouteKeys := replacingRouteKeys state;
             descriptors := descriptors state |},
          [CompleteTransition (key r)])
  | None => Throw TypeError
  end.
Proof.
  intros Habsent. apply findByKey_None in Habsent.
  unfold handleCloseRoute. rewrite Habsent.
  unfold hbind, getState, handleTransitionComplete.
  destruct (routeAt _ _); reflexivity.
Qed.

(** X14: the exit handler throws exactly when the route is absent from
    the external routes and no route is rendered; what it throws is the
    [TypeError] of reading the key of a missing route. *)
Theorem close_handler_throws_iff (props : Props) (route : Route)
  (state : State) (e : Exception) :
  handleCloseRoute props route state = Throw e <->
  e = TypeError
  /\ ~ In (key route) (routeKeys (target (ns_routes (p_state props))))
  /\ routes state = [].
Proof.
  split.
  - intros H.
    destruct (findByKey (target (ns_routes (p_state props))) (key route))
      as [r|] eqn:Hf.
    + unfold handleCloseRoute in H. rewrite Hf in H. discriminate.
    + apply findByKey_None in Hf.
      rewrite (handleCloseRoute_absent props route state Hf) in H.
      destruct (routes state) as [|r0 rest] eqn:Hr.
      * cbn in H. injection H as <-. auto.
      * exfalso.
        destruct (routeAt_in_range (r0 :: rest)
                    (Z.max (findIndexByKey (r0 :: rest) (key route) - 1) 0))
          as [r Hr'].
        { pose proof (findIndexByKey_bounds (r0 :: rest) (key route)).
          cbn [length] in *. lia. }
        rewrite Hr' in H. discriminate.
  - intros (-> & Habsent & Hr).
    rewrite (handleCloseRoute_absent props route state Habsent), Hr.
    reflexivity.
Qed.

Lemma close_handler_throws_iff_witness :
  handleCloseRoute (props 1 [A] 0 [("A", plain)]) B initialState
  = Throw TypeError.
Proof.
  apply close_handler_throws_iff. repeat split.
  simpl. intros [E|[]]. discriminate E.
Defined.

(** X15: when the exit of a route completes, the route is absent from
    the external routes and some route is rendered just before its
    first occurrence, the handler acknowledges the transition for that
    preceding route. *)
Theorem close_handler_acknowledges_previous (props : Props)
  (route p r : Route) (state : State) (l rest : list Route) :
  ~ In (key route) (routeKeys (target (ns_routes (p_state props)))) ->
  routes state = l ++ p :: r :: rest ->
  key r = key route ->
  ~ In (key route) (routeKeys (l ++ [p])) ->
  exists state',
    handleCloseRoute props route state
    = Ok (tt, state', [CompleteTransition (key p)]).
Proof.
  intros Habsent Hr Hkey Hfirst.
  rewrite (handleCloseRoute_absent props route state Habsent), Hr.
  replace (l ++ p :: r :: rest) with ((l ++ [p]) ++ r :: rest)
    by now rewrite <- app_assoc.
  rewrite (findIndexByKey_first (l ++ [p]) rest r (key route) Hfirst Hkey).
  rewrite length_app. cbn [length].
  replace (Z.max (Z.of_nat (length l + 1) - 1) 0) with (Z.of_nat (length l))
    by lia.
  rewrite <- app_assoc. cbn [app]. rewrite routeAt_middle. eauto.
Qed.

Lemma close_handler_acknowledges_previous_witness :
  exists state',
    handleCloseRoute popC C afterPopC
    = Ok (tt, state', [CompleteTransition "B"]).
Proof.
  refine (close_handler_acknowledges_previous popC C B C afterPopC [A] []
            _ eq_refl eq_refl _);
    simpl; intros H; repeat destruct H as [H|H]; try discriminate H;
    exact H.
Defined.

(** X16: when the route whose exit completes is absent from the
    external routes and is the first rendered route, or is not rendered
    at all, the handler acknowledges the transition for the first
    rendered route, which in the former case is the closed route
    itself. *)
Theorem close_handler_acknowledges_first (props : Props)
  (route r0 : Route) (state : State) (rest : list Route) :
  ~ In (key route) (routeKeys (target (ns_routes (p_state props)))) ->
  routes state = r0 :: rest ->
  key r0 = key route \/ ~ In (key route) (routeKeys (r0 :: rest)) ->
  exists state',
    handleCloseRoute props route state
    = Ok (tt, state', [CompleteTransition (key r0)]).
Proof.
  intros Habsent Hr Hcase.
  rewrite (handleCloseRoute_absent props route state Habsent), Hr.
  assert (Hi : Z.max (findIndexByKey (r0 :: rest) (key route) - 1) 0 = 0%Z).
  { destruct Hcase as [Hk|Hk].
    - cbn [findIndexByKey]. rewrite Hk, String.eqb_refl. lia.
    - rewrite (findIndexByKey_absent _ _ Hk). lia. }
  rewrite Hi. cbn. eauto.
Qed.

Lemma close_handler_acknowledges_first_witness :
  exists state',
    handleCloseRoute (props 2 [B] 0 [("B", plain)]) A
      (settled 1 [A; B] [("A", plain); ("B", plain)])
    = Ok (tt, state', [CompleteTransition "A"]).
Proof.
  refine (close_handler_acknowledges_first (props 2 [B] 0 [("B", plain)])
            A A (settled 1 [A; B] [("A", plain); ("B", plain)]) [B]
            _ eq_refl _).
  - simpl. intros [E|[]]. discriminate E.
  - left. reflexivity.
Defined.

(** X17: when the route is absent from the external routes and some
    route is rendered, the exit handler returns, and afterwards no
    rendered route has the key of the closed route, every other
    rendered route is still there, the key is in neither the opening
    nor the closing keys, and the replacing keys are as before: the
    handler never clears a replacing key. *)
Theorem close_handler_outcome (props : Props) (route : Route)
  (state : State) :
  ~ In (key route) (routeKeys (target (ns_routes (p_state props)))) ->
  routes state <> [] ->
  exists state' acts,
    handleCloseRoute props route state = Ok (tt, state', acts) /\
    (forall r, In r (routes state') <->
               In r (routes state) /\ key r <> key route) /\
    ~ In (key route) (openingRouteKeys state') /\
    ~ In (key route) (closingRouteKeys state') /\
    replacingRouteKeys state' = replacingRouteKeys state /\
    previousRoutes state' = previousRoutes state /\
    descriptors state' = descriptors state.
Proof.
  intros Habsent Hne.
  rewrite (handleCloseRoute_absent props route state Habsent).
  destruct (routeAt_in_range (routes state)
              (Z.max (findIndexByKey (routes state) (key route) - 1) 0))
    as [r0 Hr0].
  { pose proof (findIndexByKey_bounds (routes state) (key route)).
    destruct (routes state); [contradiction|]. cbn [length] in *. lia. }
  rewrite Hr0. eexists. eexists. split; [reflexivity|].
  cbn [routes openingRouteKeys closingRouteKeys replacingRouteKeys
       previousRoutes descriptors].
  split; [|repeat split; apply not_In_without].
  intros r. rewrite filter_In, negb_true_iff, String.eqb_neq. reflexivity.
Qed.

Lemma close_handler_outcome_witness :
  exists state' acts,
    handleCloseRoute popC C afterPopC = Ok (tt, state', acts) /\
    ~ In "C" (closingRouteKeys state').
Proof.
  destruct (close_handler_outcome popC C afterPopC)
    as (s' & acts & H & _ & _ & Hc & _).
  - simpl. intros Hin; repeat destruct Hin as [Hin|Hin];
      try discriminate Hin; exact Hin.
  - discriminate.
  - exists s', acts. split; assumption.
Defined.

End Handlers.

(** ** The previous route *)

Lemma includes_In_false (keys : list string) (k : string) :
  ~ In k keys -> includes keys k = false.
Proof.
  intros H. destruct (includes keys k) eqn:E; [|reflexivity].
  exfalso. apply H. now apply includes_In.
Qed.

Section PreviousRoute.

Import Sample.

Variables (state : State) (route : Route).

(** The filter of [getPreviousRoute]. *)
Let shown (r : Route) : bool :=
  String.eqb (key r) (key route)
  || (negb (includes (closingRouteKeys state) (key r))
      && negb (includes (replacingRouteKeys state) (key r))).

Lemma findIndexByKey_before (rs : list Route) (k : string) (j : nat)
  (p : Route) :
  (Z.of_nat j < findIndexByKey rs k)%Z ->
  nth_error rs j = Some p ->
  key p <> k.
Proof.
  revert j. induction rs as [|r rs IH]; intros j Hj Hp.
  - destruct j; discriminate.
  - cbn [findIndexByKey] in Hj.
    destruct (String.eqb_spec (key r) k) as [E|Hne]; [lia|].
    destruct (Z.ltb_spec (findIndexByKey rs k) 0); [lia|].
    destruct j as [|j]; cbn [nth_error] in Hp.
    + injection Hp as <-. exact Hne.
    + apply (IH j); [lia|assumption].
Qed.

(** X18: the route [getPreviousRoute] returns is a rendered route with
    another key than the queried route, and its key is neither among
    the closing nor among the replacing keys. *)
Theorem previous_route_is_at_rest (p : Route) :
  getPreviousRoute state route = Some p ->
  In p (routes state)
  /\ key p <> key route
  /\ ~ In (key p) (closingRouteKeys state)
  /\ ~ In (key p) (replacingRouteKeys state).
Proof.
  unfold getPreviousRoute. fold shown. set (fr := List.filter shown _).
  unfold routeAt. intros H.
  destruct (Z.ltb_spec (findIndexByKey fr (key route) - 1) 0) as [|Hge];
    [discriminate|].
  assert (Hne : key p <> key route).
  { apply (findIndexByKey_before fr (key route)
             (Z.to_nat (findIndexByKey fr (key route) - 1)));
      [lia|assumption]. }
  apply nth_error_In in H. apply filter_In in H as [Hin Hshown].
  unfold shown in Hshown. apply String.eqb_neq in Hne.
  rewrite Hne in Hshown. cbn [orb] in Hshown.
  apply andb_prop in Hshown as [Hc Hr].
  apply negb_true_iff in Hc, Hr. apply String.eqb_neq in Hne.
  repeat split; try assumption; rewrite <- includes_In; congruence.
Qed.

Lemma shown_none (mid : list Route) :
  ~ In (key route) (routeKeys mid) ->
  (forall m, In m mid ->
     In (key m) (closingRouteKeys state)
     \/ In (key m) (replacingRouteKeys state)) ->
  List.filter shown mid = [].
Proof.
  induction mid as [|m mid IH]; intros Hk Hm; [reflexivity|]. simpl.
  assert (E : shown m = false).
  { unfold shown.
    destruct (String.eqb_spec (key m) (key route)) as [E|_].
    - exfalso. apply Hk. now left.
    - destruct (Hm m (or_introl eq_refl)) as [Hin|Hin];
        apply includes_In in Hin; rewrite Hin; cbn;
        [reflexivity|apply andb_false_r]. }
  rewrite E. apply IH.
  - intros Hin. apply Hk. now right.
  - intros m' Hin. apply Hm. now right.
Qed.

Lemma shown_keys (rs : list Route) :
  ~ In (key route) (routeKeys rs) ->
  ~ In (key route) (routeKeys (List.filter shown rs)).
Proof.
  intros Hk Hin. apply Hk. unfold routeKeys in *.
  apply in_map_iff in Hin as (r & Hr & Hin).
  apply filter_In in Hin as [Hin _]. apply in_map_iff. eauto.
Qed.

(** X19: the previous route of a rendered route is the nearest route
    before its first occurrence that is neither closing nor being
    replaced: the routes in between, all marked closing or replacing,
    are skipped. *)
Theorem previous_route_skips_marked_routes (p r : Route)
  (l mid rest : list Route) :
  routes state = l ++ p :: mid ++ r :: rest ->
  key r = key route ->
  ~ In (key route) (routeKeys (l ++ p :: mid)) ->
  ~ In (key p) (closingRouteKeys state) ->
  ~ In (key p) (replacingRouteKeys state) ->
  (forall m, In m mid ->
     In (key m) (closingRouteKeys state)
     \/ In (key m) (replacingRouteKeys state)) ->
  getPreviousRoute state route = Some p.
Proof.
  intros Hr Hkey Hfirst Hpc Hpr Hmid.
  unfold getPreviousRoute. fold shown. rewrite Hr.
  assert (Hkl : ~ In (key route) (routeKeys l)).
  { intros Hin. apply Hfirst. unfold routeKeys in *.
    rewrite map_app. apply in_or_app. now left. }
  assert (Hkm : ~ In (key route) (routeKeys mid)).
  { intros Hin. apply Hfirst. unfold routeKeys in *.
    rewrite map_app. apply in_or_app. right. now right. }
  assert (Hkp : key p <> key route).
  { intros E. apply Hfirst. unfold routeKeys.
    rewrite map_app. apply in_or_app. right. now left. }
  assert (Hp : shown p = true).
  { unfold shown. apply includes_In_false in Hpc, Hpr.
    rewrite Hpc, Hpr. apply orb_true_r. }
  assert (Hsr : shown r = true).
  { unfold shown. now rewrite Hkey, String.eqb_refl. }
  rewrite List.filter_app. cbn [List.filter]. rewrite Hp.
  rewrite List.filter_app. cbn [List.filter]. rewrite Hsr.
  rewrite (shown_none mid Hkm Hmid). cbn [app].
  replace (List.filter shown l ++ p :: r :: List.filter shown rest)
    with ((List.filter shown l ++ [p]) ++ r :: List.filter shown rest)
    by now rewrite <- app_assoc.
  rewrite (findIndexByKey_first (List.filter shown l ++ [p]) _ r (key route)).
  - rewrite length_app. cbn [length].
    replace (Z.of_nat (length (List.filter shown l) + 1) - 1)%Z
      with (Z.of_nat (length (List.filter shown l))) by lia.
    rewrite <- app_assoc. cbn [app]. apply routeAt_middle.
  - unfold routeKeys. rewrite map_app. intros Hin.
    apply in_app_or in Hin as [Hin|[Hin|[]]].
    + now apply (shown_keys l Hkl).
    + now apply Hkp.
  - exact Hkey.
Qed.

(** X20: there is no previous route for a route that is not rendered
    and none for the first rendered route. *)
Theorem previous_route_of_first_or_unknown :
  ~ In (key route) (routeKeys (routes state))
  \/ (exists r rest, routes state = r :: rest /\ key r = key route) ->
  getPreviousRoute state route = None.
Proof.
  unfold getPreviousRoute. fold shown. intros [Hk|(r & rest & Hr & Hkey)].
  - rewrite (findIndexByKey_absent _ _ (shown_keys _ Hk)). reflexivity.
  - rewrite Hr. cbn [List.filter].
    assert (Hsr : shown r = true).
    { unfold shown. now rewrite Hkey, String.eqb_refl. }
    rewrite Hsr. cbn [findIndexByKey]. now rewrite Hkey, String.eqb_refl.
Qed.

End PreviousRoute.

Section PreviousRouteWitnesses.

Import Sample.

Lemma previous_route_is_at_rest_witness :
  In A (routes reinserted)
  /\ key A <> key B
  /\ ~ In (key A) (closingRouteKeys reinserted)
  /\ ~ In (key A) (replacingRouteKeys reinserted).
Proof. apply (previous_route_is_at_rest reinserted B A). reflexivity. Defined.

Lemma previous_route_skips_marked_routes_witness :
  getPreviousRoute reinserted B = Some A.
Proof.
  refine (previous_route_skips_marked_routes reinserted B A B [] [C] []
            eq_refl eq_refl _ _ _ _).
  - simpl. intros H; repeat destruct H as [H|H]; try discriminate H; exact H.
  - simpl. intros [E|[]]. discriminate E.
  - simpl. intros [].
  - intros m [<-|[]]. left. simpl. now left.
Defined.

Lemma previous_route_of_first_or_unknown_witness :
  getPreviousRoute reinserted A = None.
Proof.
  apply previous_route_of_first_or_unknown. right.
  exists A, [C; B]. split; reflexivity.
Defined.

End PreviousRouteWitnesses.

(** ** Gestures and scenes after a reconciliation *)

Section AfterReconcile.

Import Sample.

Variables (props : Props) (state : State) (d : Derived).
Hypothesis derived : getDerivedStateFromProps props state = Ok d.
Hypothesis rebuilt : d <> NoUpdate.

(** X21: after the reconciler rebuilt the descriptors, gestures are
    enabled only for routes that are rendered and for which the
    reconciler itself counts animation as enabled. *)
Theorem gestures_only_for_rendered_animated_routes (platformOS : string)
  (route : Route) :
  getGesturesEnabled platformOS (applyDerived state d) route = Ok true ->
  In (key route) (routeKeys (routes (applyDerived state d)))
  /\ isAnimationEnabled props state (key route) = Ok true.
Proof.
  unfold getGesturesEnabled, isAnimationEnabled.
  rewrite (rebuilt_descriptor props state d (key route) derived rebuilt).
  destruct (includes _ _) eqn:Hin.
  - apply includes_In in Hin.
    destruct (orElse _ _) as [|descriptor|]; try discriminate.
    destruct (animationEnabled (options descriptor)) as [[|]|];
      try discriminate; auto.
  - rewrite getDescriptor_empty.
    destruct (inheritedName (key route)); discriminate.
Qed.

(** X22: after the reconciler rebuilt the descriptors, the scene of a
    rendered route is built from the external descriptor when the
    external map has one for its key, whatever was retained; from the
    descriptor retained before when the external lookup gives
    [undefined]; and it is [null] when both lookups give [undefined].
    When the external lookup gives a member inherited from
    [Object.prototype], the call throws. *)
Theorem scene_of_rendered_route (route : Route) :
  In route (routes (applyDerived state d)) ->
  (forall external,
     getDescriptor (target (p_descriptors props)) (key route)
       = object external ->
     renderScene props (applyDerived state d) route
       = Ok (Some (SceneView external)))
  /\ (getDescriptor (target (p_descriptors props)) (key route) = undefined ->
      (forall retained,
         getDescriptor (descriptors state) (key route) = object retained ->
         renderScene props (applyDerived state d) route
           = Ok (Some (SceneView retained)))
      /\ (getDescriptor (descriptors state) (key route) = undefined ->
          renderScene props (applyDerived state d) route = Ok None))
  /\ (getDescriptor (target (p_descriptors props)) (key route) = inherited ->
      renderScene props (applyDerived state d) route = Throw TypeError).
Proof.
  intros Hin. unfold renderScene.
  rewrite (rebuilt_descriptor props state d (key route) derived rebuilt).
  apply In_routeKeys, includes_In in Hin. rewrite Hin.
  repeat split.
  - intros external E. now rewrite E.
  - intros retained E'. now rewrite H, E'.
  - intros E'. now rewrite H, E'.
  - intros E. now rewrite E.
Qed.

End AfterReconcile.

Section AfterReconcileWitnesses.

Import Sample.

Lemma gestures_only_for_rendered_animated_routes_witness :
  In "C" (routeKeys (routes afterPopC))
  /\ isAnimationEnabled popC mounted3 "C" = Ok true.
Proof.
  refine (gestures_only_for_rendered_animated_routes popC mounted3
            (FullUpdate afterPopC) eq_refl _ "ios" C eq_refl).
  discriminate.
Defined.

(** [C] was popped: its scene is still built, from the retained
    descriptor. *)
Lemma scene_of_rendered_route_witness :
  renderScene popC afterPopC C = Ok (Some (SceneView plain)).
Proof.
  assert (Hd : FullUpdate afterPopC <> NoUpdate) by discriminate.
  assert (Hin : In C (routes afterPopC)) by (simpl; auto).
  exact (proj1 (proj1 (proj2 (scene_of_rendered_route popC mounted3
                                (FullUpdate afterPopC) eq_refl Hd C Hin))
                  eq_refl) plain eq_refl).
Defined.

End AfterReconcileWitnesses.

(** ** A handler between two renders *)

Section HandlerThenRender.

Import Sample.

(** X23: when a handler has run on a state derived from the current
    props and has left some route rendered, the next render with the
    same props returns [null]: what the handler removed stays
    removed. *)
Theorem render_after_handler_returns_null (props props' : Props)
  (route : Route) (state state' : State) (acts : list Action) :
  same_ref (ns_routes (p_state props)) (previousRoutes state) = true ->
  same_ref (p_descriptors props) (previousDescriptors state) = true ->
  handleOpenRoute route state = Ok (tt, state', acts)
  \/ handleCloseRoute props' route state = Ok (tt, state', acts) ->
  routes state' <> [] ->
  getDerivedStateFromProps props state' = Ok NoUpdate.
Proof.
  intros Hr Hd Hhandler Hne.
  assert (Hkept : previousRoutes state' = previousRoutes state
                  /\ previousDescriptors state' = previousDescriptors state).
  { destruct Hhandler as [H|H].
    - unfold handleOpenRoute, hbind, handleTransitionComplete, dispatch,
        setState in H. injection H as <- _. split; reflexivity.
    - unfold handleCloseRoute in H. destruct (findByKey _ _).
      + unfold dispatch in H. injection H as <- _. split; reflexivity.
      + unfold hbind, getState, handleTransitionComplete in H.
        destruct (routeAt _ _); [|discriminate].
        unfold dispatch, setState in H. injection H as <- _.
        split; reflexivity. }
  destruct Hkept as [Hkr Hkd].
  unfold getDerivedStateFromProps, routesUnchanged, fastPath.
  rewrite Hkr, Hkd, Hr, Hd.
  destruct (routes state'); [contradiction|reflexivity].
Qed.

Lemma render_after_handler_returns_null_witness :
  exists state',
    handleCloseRoute popC C afterPopC
      = Ok (tt, state', [CompleteTransition "B"])
    /\ getDerivedStateFromProps popC state' = Ok NoUpdate.
Proof.
  eexists. split; [reflexivity|].
  refine (render_after_handler_returns_null popC popC C afterPopC _
            [CompleteTransition "B"] eq_refl eq_refl (or_intror eq_refl) _).
  discriminate.
Defined.

End HandlerThenRender.

(** ** A route that enters or leaves is marked in one list only *)

Section OneListOnly.

Import Sample.

Variables (props : Props) (state : State) (pf nf : Route).
Hypothesis changedRoutes : routesUnchanged props state = false.
Hypothesis wasFocused :
  lastRoute (target (previousRoutes state)) = Some pf.
Hypothesis nowFocused : lastRoute (truncated (p_state props)) = Some nf.
Hypothesis otherKey : key pf <> key nf.

(** X24: when a new route comes to the focus with animation enabled and
    its key not yet among the opening keys, a returned state renders
    the route and has its key in neither the closing nor the replacing
    keys, whatever these lists held before: a route that re-enters
    while it was leaving is no longer marked as leaving. *)
Theorem entering_route_is_unmarked (s' : State) :
  ~ In (key nf) (routeKeys (target (previousRoutes state))) ->
  isAnimationEnabled props state (key nf) = Ok true ->
  ~ In (key nf) (openingRouteKeys state) ->
  getDerivedStateFromProps props state = Ok (FullUpdate s') ->
  In nf (routes s')
  /\ ~ In (key nf) (closingRouteKeys s')
  /\ ~ In (key nf) (replacingRouteKeys s').
Proof.
  intros Hnew Hanim Hfresh.
  rewrite (slowPath_focus_changed props state changedRoutes pf nf
             wasFocused nowFocused otherKey).
  apply findByKey_None in Hnew. rewrite Hnew.
  apply includes_In_false in Hfresh.
  pose proof (lastRoute_In _ _ nowFocused) as Hin.
  unfold pushBranch. cbn [startVars v_routes v_opening v_closing v_replacing].
  rewrite Hanim. cbn [rbind]. rewrite Hfresh. cbn [negb andb].
  assert (Hsplit : forall (l : list string) (k : string),
            k <> key nf -> ~ In (key nf) (without (key nf) l ++ [k])).
  { intros l k Hk H. apply in_app_or in H as [H|[H|[]]];
      [now apply not_In_without in H|congruence]. }
  destruct (findByKey (truncated (p_state props)) (key pf)).
  - cbn [rbind v_routes]. destruct (length _ =? 0)%nat; [discriminate|].
    intros H. injection H as <-.
    cbn [derivedState routes closingRouteKeys replacingRouteKeys
         v_routes v_closing v_replacing].
    repeat split; auto using not_In_without.
  - destruct (getAnimationTypeForReplace props state (key nf)) as [[|]|e];
      cbn [rbind v_routes]; [| |discriminate];
      (destruct (length _ =? 0)%nat; [discriminate|]);
      intros H; injection H as <-;
      cbn [derivedState routes closingRouteKeys replacingRouteKeys
           v_routes v_closing v_replacing];
      repeat split; auto using not_In_without.
    + apply In_splice0. now left.
    + intros H. apply In_without in H as [H _].
      now apply not_In_without in H.
    + apply in_or_app. now left.
Qed.

(** X25: on the slow path, when the previously focused route was
    removed, the new focused route was known before, the reconciler's
    test says that animation is enabled for the removed route and its
    key is not yet among the closing keys, the removed route is
    kept after the truncated external routes, its key is added to the
    closing keys and taken out of the opening and replacing keys: a
    route closed before its entrance completed is no longer marked as
    entering. *)
Theorem leaving_route_is_kept_last :
  In (key nf) (routeKeys (target (previousRoutes state))) ->
  ~ In (key pf) (routeKeys (truncated (p_state props))) ->
  isAnimationEnabled props state (key pf) = Ok true ->
  ~ In (key pf) (closingRouteKeys state) ->
  exists s',
    getDerivedStateFromProps props state = Ok (FullUpdate s') /\
    routes s' = truncated (p_state props) ++ [pf] /\
    closingRouteKeys s' = closingRouteKeys state ++ [key pf] /\
    openingRouteKeys s' = without (key pf) (openingRouteKeys state) /\
    replacingRouteKeys s' = without (key pf) (replacingRouteKeys state) /\
    ~ In (key pf) (openingRouteKeys s') /\
    ~ In (key pf) (replacingRouteKeys s').
Proof.
  intros Hold Hgone Hanim Hfresh.
  rewrite (slowPath_focus_changed props state changedRoutes pf nf
             wasFocused nowFocused otherKey).
  apply findByKey_In in Hold as [r1 ->].
  apply findByKey_None in Hgone. rewrite Hgone.
  apply includes_In_false in Hfresh.
  unfold popBranch. cbn [startVars v_routes v_opening v_closing v_replacing].
  rewrite Hanim. cbn [rbind]. rewrite Hfresh. cbn [negb andb rbind v_routes].
  destruct (truncated (p_state props) ++ [pf]) eqn:E;
    [now destruct (truncated (p_state props))|].
  cbn [length Nat.eqb]. rewrite <- E. eexists. split; [reflexivity|].
  cbn [derivedState routes openingRouteKeys closingRouteKeys
       replacingRouteKeys].
  repeat split; apply not_In_without.
Qed.

End OneListOnly.

Section OneListOnlyWitnesses.

Import Sample.

(** [B] was popped and is still closing when the owner pushes it
    again. *)
Lemma entering_route_is_unmarked_witness :
  exists s',
    getDerivedStateFromProps
      (props 4 [A; B] 1 [("A", plain); ("B", plain)]) afterPopB
    = Ok (FullUpdate s')
    /\ In B (routes s')
    /\ ~ In "B" (closingRouteKeys s')
    /\ ~ In "B" (replacingRouteKeys s').
Proof.
  eexists. split; [reflexivity|].
  refine (entering_route_is_unmarked
            (props 4 [A; B] 1 [("A", plain); ("B", plain)]) afterPopB A B
            eq_refl eq_refl eq_refl _ _ _ eq_refl _ eq_refl).
  - discriminate.
  - simpl. intros [E|[]]. discriminate E.
  - simpl. intros [].
Defined.

Lemma leaving_route_is_kept_last_witness :
  exists s',
    getDerivedStateFromProps popC mounted3 = Ok (FullUpdate s') /\
    routes s' = [A; B; C] /\
    closingRouteKeys s' = ["C"].
Proof.
  destruct (leaving_route_is_kept_last popC mounted3 C B eq_refl eq_refl
              eq_refl)
    as (s' & H & Hr & Hc & _).
  - discriminate.
  - simpl. auto.
  - simpl. intros Hin; repeat destruct Hin as [Hin|Hin];
      try discriminate Hin; exact Hin.
  - reflexivity.
  - simpl. intros [].
  - exists s'. repeat split; assumption.
Defined.

End OneListOnlyWitnesses.
